(** * Series Manager: series detection and grouping for a virtual bookshelf

    A shallow embedding of [src/js/series-manager.js] (class [SeriesManager])
    and the properties of its specification.

    Layout of the development:
    - [JS]: the ECMAScript primitives the source relies on (UTF-16 strings,
      white space, [trim], numbers as IEEE doubles restricted to the integer
      values that occur, [parseInt]);
    - [Regex]: a backtracking matcher for the fragment of regular expressions
      the source uses, with capture groups and lazy/greedy quantifiers;
    - the methods of [SeriesManager], in source order, over an explicit heap
      of array and [Map] objects (the cache fields hold references);
    - lemmas and the theorems of the specification. *)

From Stdlib Require Import ZArith List Bool Lia String Ascii Sorted Permutation.
From stdpp Require Import base option list gmap.

Local Open Scope Z_scope.

(** A JavaScript string is a sequence of UTF-16 code units. *)
Abbreviation jsstring := (list Z).

(* ===================================================================== *)
(** * ECMAScript primitives                                                *)
(* ===================================================================== *)

Module JS.

(** ** String literals

    Literals of this file are written as UTF-8 text and decoded to UTF-16
    code units, so that they can be read next to the source. *)

Definition byteZ (a : ascii) : Z := Z.of_N (N_of_ascii a).

Fixpoint bytes (s : string) : list Z :=
  match s with
  | EmptyString => []
  | String a s' => byteZ a :: bytes s'
  end.

Definition cont (b : Z) : Z := Z.land b 63.

(** UTF-16 encoding of one code point. *)
Definition encode16 (cp : Z) : list Z :=
  if cp <? 65536 then [cp]
  else [55296 + Z.shiftr (cp - 65536) 10; 56320 + Z.land (cp - 65536) 1023].

Fixpoint decode8 (bs : list Z) : list Z :=
  match bs with
  | [] => []
  | b0 :: r0 =>
      if b0 <? 128 then b0 :: decode8 r0
      else match r0 with
      | [] => [65533]
      | b1 :: r1 =>
          if b0 <? 224 then
            (Z.shiftl (Z.land b0 31) 6 + cont b1) :: decode8 r1
          else match r1 with
          | [] => [65533]
          | b2 :: r2 =>
              if b0 <? 240 then
                (Z.shiftl (Z.land b0 15) 12 + Z.shiftl (cont b1) 6 + cont b2)
                  :: decode8 r2
              else match r2 with
              | [] => [65533]
              | b3 :: r3 =>
                  encode16 (Z.shiftl (Z.land b0 7) 18 + Z.shiftl (cont b1) 12
                            + Z.shiftl (cont b2) 6 + cont b3) ++ decode8 r3
              end
          end
      end
  end.

Definition lit (s : string) : jsstring := decode8 (bytes s).
Arguments lit s%_string_scope.

(** A one-character literal as a code unit. *)
Definition chr (s : string) : Z := hd 0 (lit s).
Arguments chr s%_string_scope.

(** ** Character classes of the language *)

(** [LineTerminator]: LF, CR, LS, PS. *)
Definition isLineTerminator (c : Z) : bool :=
  (c =? 10) || (c =? 13) || (c =? 8232) || (c =? 8233).

(** [WhiteSpace] and [LineTerminator] code units: the set of [\s] and of
    [String.prototype.trim]. *)
Definition isWhiteSpace (c : Z) : bool :=
  ((9 <=? c) && (c <=? 13)) || (c =? 32) || (c =? 160) || (c =? 5760)
  || ((8192 <=? c) && (c <=? 8202)) || (c =? 8232) || (c =? 8233)
  || (c =? 8239) || (c =? 8287) || (c =? 12288) || (c =? 65279).

(** [\d]. *)
Definition isDigit (c : Z) : bool := (48 <=? c) && (c <=? 57).

(** ** String methods *)

Fixpoint dropWhile {A} (p : A -> bool) (l : list A) : list A :=
  match l with
  | [] => []
  | x :: l' => if p x then dropWhile p l' else l
  end.

Definition trimStart (s : jsstring) : jsstring := dropWhile isWhiteSpace s.
Definition trimEnd (s : jsstring) : jsstring :=
  rev (dropWhile isWhiteSpace (rev s)).

(** [String.prototype.trim]. *)
Definition trim (s : jsstring) : jsstring := trimEnd (trimStart s).

(** [str.replace(/[...]/g, f)] for a pattern that is a single character
    class: every code unit of the class is replaced, the others are kept. *)
Definition replaceEach (p : Z -> bool) (f : Z -> Z) (s : jsstring) : jsstring :=
  List.map (fun c => if p c then f c else c) s.

(** [str.replace(/[...]/g, '')] for a single character class. *)
Definition removeEach (p : Z -> bool) (s : jsstring) : jsstring :=
  List.filter (fun c => negb (p c)) s.

(** [str.replace(/\s+/g, ' ')]: every maximal run of white space becomes one
    space.  [inRun] tells that the previous code unit was white space. *)
Fixpoint collapseFrom (inRun : bool) (s : jsstring) : jsstring :=
  match s with
  | [] => []
  | c :: s' =>
      if isWhiteSpace c
      then (if inRun then collapseFrom true s' else 32 :: collapseFrom true s')
      else c :: collapseFrom false s'
  end.

Definition collapseSpaces (s : jsstring) : jsstring := collapseFrom false s.

(** ASCII part of [String.prototype.toLowerCase]. *)
Definition lowerAscii (c : Z) : Z :=
  if (65 <=? c) && (c <=? 90) then c + 32 else c.

(** ** Numbers

    Every number the program computes is an integer-valued double, an
    infinity or NaN. *)

Inductive number :=
| Fin (z : Z)
| Inf (negative : bool)
| NaN.

#[global] Instance number_eq_dec : EqDecision number.
Proof. solve_decision. Defined.

(** Rounding of a mathematical integer to the nearest double, ties to even:
    53 significant bits, overflow to an infinity from [2^1024 - 2^970]. *)
Definition toDouble (z : Z) : number :=
  let a := Z.abs z in
  if a <? 2 ^ 53 then Fin z
  else
    let e := Z.log2 a - 52 in
    let q := a / 2 ^ e in
    let r := a mod 2 ^ e in
    let h := 2 ^ (e - 1) in
    let q' := if (h <? r) || ((r =? h) && Z.odd q) then q + 1 else q in
    let v := q' * 2 ^ e in
    if 2 ^ 1024 <=? v then Inf (z <? 0) else Fin (Z.sgn z * v).

(** The binary [-] on these numbers. *)
Definition sub (a b : number) : number :=
  match a, b with
  | NaN, _ | _, NaN => NaN
  | Fin x, Fin y => toDouble (x - y)
  | Fin _, Inf n => Inf (negb n)
  | Inf n, Fin _ => Inf n
  | Inf n, Inf m => if Bool.eqb n m then NaN else Inf n
  end.

Definition isNegative (a : number) : bool :=
  match a with
  | Fin z => z <? 0
  | Inf n => n
  | NaN => false
  end.

(** Value of the longest prefix of decimal digits, most significant first;
    [None] when there is no digit. *)
Fixpoint digitsFrom (acc : option Z) (s : jsstring) : option Z :=
  match s with
  | [] => acc
  | c :: s' =>
      if isDigit c
      then digitsFrom (Some (10 * default 0 acc + (c - 48))) s'
      else acc
  end.

(** [parseInt(s, 10)]: leading white space is skipped, a sign is read, the
    digits up to the first other code unit are the value, rounded to a
    double; NaN without a digit. *)
Definition parseInt (s : jsstring) : number :=
  let s1 := trimStart s in
  let '(neg, s2) :=
    match s1 with
    | c :: r =>
        if c =? 45 then (true, r) else if c =? 43 then (false, r) else (false, s1)
    | [] => (false, s1)
    end in
  match digitsFrom None s2 with
  | None => NaN
  | Some n => toDouble (if neg then - n else n)
  end.

End JS.


(* ===================================================================== *)
(** * Regular expressions                                                  *)
(* ===================================================================== *)

(** The fragment used by the source: character classes, greedy and lazy
    repetition of a class, sequence, alternation, capture groups and the two
    assertions [^] and [$] (no [m] flag: start and end of the input).
    Matching is the backtracking search of the language definition, written
    with continuations; the patterns have no [u] flag, so a character is one
    code unit. *)

Module Regex.

Inductive regex :=
| Empty
| Class (p : Z -> bool)
| Star (greedy : bool) (p : Z -> bool)
| Seq (r1 r2 : regex)
| Alt (r1 r2 : regex)
| Group (i : nat) (r : regex)
| AssertStart
| AssertEnd.

(** Captures: the most recent binding of a group comes first. *)
Definition captures := list (nat * jsstring).

Fixpoint capture (i : nat) (c : captures) : option jsstring :=
  match c with
  | [] => None
  | (j, w) :: c' => if Nat.eqb i j then Some w else capture i c'
  end.

(** A match in progress: index of the next code unit, remaining input and
    captures so far. *)
Definition continuation := nat -> jsstring -> captures -> option (nat * captures).

Fixpoint run (r : regex) (pos : nat) (s : jsstring) (c : captures)
    (k : continuation) : option (nat * captures) :=
  match r with
  | Empty => k pos s c
  | Class p =>
      match s with
      | x :: s' => if p x then k (S pos) s' c else None
      | [] => None
      end
  | Star greedy p =>
      (fix loop (pos : nat) (s : jsstring) {struct s} :=
         match s with
         | x :: s' =>
             if p x then
               if greedy then
                 match loop (S pos) s' with
                 | Some m => Some m
                 | None => k pos s c
                 end
               else
                 match k pos s c with
                 | Some m => Some m
                 | None => loop (S pos) s'
                 end
             else k pos s c
         | [] => k pos s c
         end) pos s
  | Seq r1 r2 => run r1 pos s c (fun pos' s' c' => run r2 pos' s' c' k)
  | Alt r1 r2 =>
      match run r1 pos s c k with
      | Some m => Some m
      | None => run r2 pos s c k
      end
  | Group i r1 =>
      run r1 pos s c
        (fun pos' s' c' => k pos' s' ((i, firstn (pos' - pos) s) :: c'))
  | AssertStart => if Nat.eqb pos 0 then k pos s c else None
  | AssertEnd => match s with [] => k pos s c | _ => None end
  end.

(** Result of a successful search: index of the first code unit of the match,
    index after its last one, captures. *)
Record found := { matchIndex : nat; matchEnd : nat; groups : captures }.

(** Leftmost match: the pattern is tried at index [pos], then at the
    following indices. *)
Fixpoint searchFrom (r : regex) (pos : nat) (s : jsstring) : option found :=
  match run r pos s [] (fun e _ c => Some (e, c)) with
  | Some (e, c) => Some {| matchIndex := pos; matchEnd := e; groups := c |}
  | None =>
      match s with
      | [] => None
      | _ :: s' => searchFrom r (S pos) s'
      end
  end.

(** [str.match(r)] for a pattern without the [g] flag. *)
Definition exec (r : regex) (s : jsstring) : option found := searchFrom r 0%nat s.

(** [m[i]] of a match array for a group that took part in the match. *)
Definition group (i : nat) (m : found) : jsstring := default [] (capture i (groups m)).

(** [str.replace(r, '')] for a pattern without the [g] flag: the leftmost
    match is removed. *)
Definition removeFirst (r : regex) (s : jsstring) : jsstring :=
  match exec r s with
  | Some m => firstn (matchIndex m) s ++ skipn (matchEnd m) s
  | None => s
  end.

(** *** The strings of a pattern

    [lang r w]: the pattern [r] can consume [w] (an assertion consumes
    nothing).  [captured r i w]: some group [i] of [r] can capture [w].
    [binds r i]: every match of [r] goes through a group [i]. *)

Fixpoint lang (r : regex) (w : jsstring) : Prop :=
  match r with
  | Empty | AssertStart | AssertEnd => w = []
  | Class p => exists x, w = [x] /\ p x = true
  | Star _ p => forallb p w = true
  | Seq r1 r2 => exists w1 w2, w = w1 ++ w2 /\ lang r1 w1 /\ lang r2 w2
  | Alt r1 r2 => lang r1 w \/ lang r2 w
  | Group _ r1 => lang r1 w
  end.

Fixpoint captured (r : regex) (i : nat) (w : jsstring) : Prop :=
  match r with
  | Seq r1 r2 | Alt r1 r2 => captured r1 i w \/ captured r2 i w
  | Group j r1 => (i = j /\ lang r1 w) \/ captured r1 i w
  | _ => False
  end.

Fixpoint binds (r : regex) (i : nat) : bool :=
  match r with
  | Seq r1 r2 => binds r1 i || binds r2 i
  | Alt r1 r2 => binds r1 i && binds r2 i
  | Group j r1 => Nat.eqb i j || binds r1 i
  | _ => false
  end.

(** The captures [c'] after matching [r] from the captures [c]: a binding is
    an old one or a string that a group of [r] can capture, and nothing is
    lost. *)
Definition grows (r : regex) (c c' : captures) : Prop :=
  (forall i w, capture i c' = Some w -> capture i c = Some w \/ captured r i w)
  /\ (forall i, is_Some (capture i c) \/ binds r i = true -> is_Some (capture i c')).

(** [must P r]: every string that [r] can consume has a character of the
    class [P]. *)
Fixpoint must (P : Z -> bool) (r : regex) : Prop :=
  match r with
  | Class p => forall x, p x = true -> P x = true
  | Seq r1 r2 => must P r1 \/ must P r2
  | Alt r1 r2 => must P r1 /\ must P r2
  | Group _ r1 => must P r1
  | _ => False
  end.

(** *** Pattern syntax *)

Definition seq (rs : list regex) : regex := fold_right Seq Empty rs.
Definition alt (rs : list regex) : regex :=
  match rs with
  | [] => Empty
  | r :: rs' => fold_left Alt rs' r
  end.

(** [x+], [x+?], [x*], [x*?], [x?] for a class [x]. *)
Definition plus (p : Z -> bool) : regex := Seq (Class p) (Star true p).
Definition plusLazy (p : Z -> bool) : regex := Seq (Class p) (Star false p).
Definition star (p : Z -> bool) : regex := Star true p.
Definition opt (p : Z -> bool) : regex := Alt (Class p) Empty.

(** A literal character; [.]; [\s]; [\S]; [\d]. *)
Definition isChar (s : string) : Z -> bool := fun c => c =? JS.chr s.
Arguments isChar s%_string_scope.
Definition ch (s : string) : regex := Class (isChar s).
Arguments ch s%_string_scope.
Definition dot : Z -> bool := fun c => negb (JS.isLineTerminator c).
Definition ws : Z -> bool := JS.isWhiteSpace.
Definition nonWs : Z -> bool := fun c => negb (JS.isWhiteSpace c).
Definition digit : Z -> bool := JS.isDigit.
(** A literal letter under the [i] flag: the letter in either case (a code
    unit above 127 never canonicalizes to an ASCII letter). *)
Definition isNoCase (s : string) : Z -> bool :=
  fun c => JS.lowerAscii c =? JS.lowerAscii (JS.chr s).
Arguments isNoCase s%_string_scope.

End Regex.

(* ===================================================================== *)
(** * Data model                                                           *)
(* ===================================================================== *)

(** A book record of the caller.  A field that may be missing is an option;
    [None] stands for [undefined]. *)
Module Book.
Record t := {
  asin : jsstring;
  title : option jsstring;
  authors : option jsstring;
  readStatus : option jsstring
}.
End Book.

(** Result of [extractVolumeNumber]; [None] stands for [null]. *)
Module Extracted.
Record t := {
  volumeNumber : option JS.number;
  normalizedTitle : jsstring
}.
End Extracted.

(** An element of a [volumes] array. *)
Module Volume.
Record t := {
  book : Book.t;
  volumeNumber : option JS.number
}.
End Volume.

(** A value of the local [seriesMap]. *)
Module SeriesData.
Record t := {
  seriesId : jsstring;
  seriesName : jsstring;
  authors : jsstring;
  volumes : list Volume.t
}.
End SeriesData.

Module SeriesInfo.
Record t := {
  seriesId : jsstring;
  seriesName : jsstring;
  authors : jsstring;
  volumes : list Volume.t;
  representativeBook : Book.t;
  totalVolumes : nat
}.
End SeriesInfo.

Module SeriesProgress.
Record t := { total : Z; read : Z; unread : Z }.
End SeriesProgress.

(** ** Objects and references

    The cache fields of a [SeriesManager] hold references to an array and to
    a [Map]; both kinds of object live in a heap, and a reference is the
    index of its cell.  Allocation appends a cell, so a reference handed out
    once is never reused. *)

Abbreviation loc := nat.

Inductive object :=
| ArrayObj (items : list SeriesInfo.t)
| MapObj (entries : gmap jsstring jsstring).

Abbreviation heap := (list object).

Definition alloc (h : heap) (o : object) : heap * loc := (h ++ [o], length h).

(** Contents of an array object and of a [Map] object. *)
Definition arrayAt (h : heap) (l : loc) : list SeriesInfo.t :=
  match h !! l with
  | Some (ArrayObj a) => a
  | _ => []
  end.

Definition mapAt (h : heap) (l : loc) : gmap jsstring jsstring :=
  match h !! l with
  | Some (MapObj m) => m
  | _ => ∅
  end.

(** [array.push(x)] and [map.set(k, v)] through a reference. *)
Definition push (h : heap) (l : loc) (x : SeriesInfo.t) : heap :=
  <[l := ArrayObj (arrayAt h l ++ [x])]> h.

Definition mapSet (h : heap) (l : loc) (k v : jsstring) : heap :=
  <[l := MapObj (<[k := v]> (mapAt h l))]> h.

(** The fields of a [SeriesManager] instance. *)
Module SeriesManager.
Record t := {
  seriesGroups : loc;
  bookToSeriesMap : loc;
  cacheValid : bool
}.
End SeriesManager.

(** The object returned by [detectAndGroupSeries]. *)
Module Detected.
Record t := {
  seriesGroups : loc;
  bookToSeriesMap : loc
}.
End Detected.

(** The heap together with the instance the methods are called on. *)
Record state := {
  store : heap;
  this : SeriesManager.t
}.

(** Truthiness of an optional string: [undefined] and [''] are falsy. *)
Definition truthy (s : option jsstring) : bool :=
  match s with
  | Some (_ :: _) => true
  | _ => false
  end.

(** ** The local [seriesMap]

    A JavaScript [Map] iterates in insertion order, and [forEach] over
    [seriesMap] decides the order of the series list: an association list in
    insertion order, without duplicate keys. *)

Abbreviation seriesMap := (list (jsstring * SeriesData.t)).

Definition has (m : seriesMap) (k : jsstring) : bool :=
  existsb (fun e => bool_decide (e.1 = k)) m.

(** [seriesMap.set(k, v)] for a key that is not in the map. *)
Definition set (m : seriesMap) (k : jsstring) (v : SeriesData.t) : seriesMap :=
  m ++ [(k, v)].

(** [data.volumes.push(v)] on a value of the map. *)
Definition extend (d : SeriesData.t) (v : Volume.t) : SeriesData.t :=
  {| SeriesData.seriesId := SeriesData.seriesId d;
     SeriesData.seriesName := SeriesData.seriesName d;
     SeriesData.authors := SeriesData.authors d;
     SeriesData.volumes := SeriesData.volumes d ++ [v] |}.

(** [seriesMap.get(k).volumes.push(v)]: the array of the entry is extended
    in place. *)
Definition pushVolume (m : seriesMap) (k : jsstring) (v : Volume.t) : seriesMap :=
  List.map (fun e => if bool_decide (e.1 = k) then (e.1, extend e.2 v) else e) m.

(** ** [Array.prototype.sort]

    The sort is stable.  Elements are taken in array order and each one is
    put in front of the first element that the comparator says it
    precedes ([comparefn(x, y) < 0]; a NaN result counts as [0]). *)

Section Sort.
Context {A : Type} (comparefn : A -> A -> JS.number).

Fixpoint insertBy (x : A) (l : list A) : list A :=
  match l with
  | [] => [x]
  | y :: l' =>
      if JS.isNegative (comparefn x y) then x :: l else y :: insertBy x l'
  end.

Definition sortBy (l : list A) : list A :=
  fold_left (fun acc x => insertBy x acc) l [].

End Sort.

(* ===================================================================== *)
(** * class SeriesManager                                                  *)
(* ===================================================================== *)

Import Regex.

(** ** normalizeString *)

(** [String.fromCharCode] of one argument. *)
Definition fromCharCode (n : Z) : Z := n mod 65536.

Definition isFullWidthAlnum (c : Z) : bool :=
  ((JS.chr "Ａ" <=? c) && (c <=? JS.chr "Ｚ"))
  || ((JS.chr "ａ" <=? c) && (c <=? JS.chr "ｚ"))
  || ((JS.chr "０" <=? c) && (c <=? JS.chr "９")).

Definition isDash (c : Z) : bool :=
  isChar "－" c || isChar "―" c || isChar "─" c || isChar "ー" c || isChar "−" c.

Definition isTilde (c : Z) : bool := isChar "～" c || isChar "〜" c.

(** The replacements of single characters in [normalizeString], in source
    order: the class that is replaced, and the replacement of a character of
    the class. *)
Definition replacements : list ((Z -> bool) * (Z -> Z)) :=
  [ (isFullWidthAlnum, fun c => fromCharCode (c - 65248));
    (isChar "（", fun _ => JS.chr "(");
    (isChar "）", fun _ => JS.chr ")");
    (isChar "【", fun _ => JS.chr "[");
    (isChar "】", fun _ => JS.chr "]");
    (isChar "「", fun _ => JS.chr "[");
    (isChar "」", fun _ => JS.chr "]");
    (isChar "　", fun _ => JS.chr " ");
    (isChar "：", fun _ => JS.chr ":");
    (isChar "；", fun _ => JS.chr ";");
    (isDash, fun _ => JS.chr "-");
    (isTilde, fun _ => JS.chr "~");
    (isChar "！", fun _ => JS.chr "!");
    (isChar "？", fun _ => JS.chr "?");
    (isChar "＆", fun _ => JS.chr "&");
    (isChar "＊", fun _ => JS.chr "*");
    (isChar "＋", fun _ => JS.chr "+");
    (isChar "，", fun _ => JS.chr ",");
    (isChar "．", fun _ => JS.chr ".") ].

(** The chain of [replace] calls, then [.replace(/\s+/g, ' ').trim()]. *)
Definition normalizeString (str : jsstring) : jsstring :=
  match str with
  | [] => []
  | _ =>
      JS.trim (JS.collapseSpaces
        (fold_left (fun s r => JS.replaceEach r.1 r.2 s) replacements str))
  end.

(** All replacements applied to one character. *)
Definition applyAll (rs : list ((Z -> bool) * (Z -> Z))) (c : Z) : Z :=
  fold_left (fun c (r : (Z -> bool) * (Z -> Z)) => if r.1 c then r.2 c else c) rs c.

(** A character that no replacement applies to. *)
Definition clean (c : Z) : Prop :=
  Forall (fun r : (Z -> bool) * (Z -> Z) => r.1 c = false) replacements.

(** A string in which white space is single spaces. *)
Fixpoint tidy (inRun : bool) (s : jsstring) : Prop :=
  match s with
  | [] => True
  | c :: s' =>
      if JS.isWhiteSpace c then c = 32 /\ inRun = false /\ tidy true s'
      else tidy false s'
  end.

(** ** extractVolumeNumber *)

(** The volume patterns, in priority order.  Group 1 is the series name and
    group 2 the volume token. *)
Definition patterns : list regex :=
  [ (* /^(.+?)\s*\(?第?(\d+)巻\)?\s*$/ *)
    seq [AssertStart; Group 1 (plusLazy dot); star ws; opt (isChar "(");
         opt (isChar "第"); Group 2 (plus digit); ch "巻"; opt (isChar ")");
         star ws; AssertEnd];
    (* /^(.+?)\s+第?(\d+)巻\s*.*$/ *)
    seq [AssertStart; Group 1 (plusLazy dot); plus ws; opt (isChar "第");
         Group 2 (plus digit); ch "巻"; star ws; star dot; AssertEnd];
    (* /^(.+?)\s*第(\d+)巻\s*$/ *)
    seq [AssertStart; Group 1 (plusLazy dot); star ws; ch "第";
         Group 2 (plus digit); ch "巻"; star ws; AssertEnd];
    (* /^(.+?)\s+第(\d+)話.+$/ *)
    seq [AssertStart; Group 1 (plusLazy dot); plus ws; ch "第";
         Group 2 (plus digit); ch "話"; plus dot; AssertEnd];
    (* /^(.+?)\s*\(?Vol\.?\s*(\d+)\)?\s*$/i *)
    seq [AssertStart; Group 1 (plusLazy dot); star ws; opt (isChar "(");
         Class (isNoCase "V"); Class (isNoCase "o"); Class (isNoCase "l");
         opt (isChar "."); star ws; Group 2 (plus digit); opt (isChar ")");
         star ws; AssertEnd];
    (* /^(.+?)\s+分冊版(\d+)\s*$/ *)
    seq [AssertStart; Group 1 (plusLazy dot); plus ws; ch "分"; ch "冊";
         ch "版"; Group 2 (plus digit); star ws; AssertEnd];
    (* /^(.+?)\s*:\s*(\d+)\s+.+$/ *)
    seq [AssertStart; Group 1 (plusLazy dot); star ws; ch ":"; star ws;
         Group 2 (plus digit); plus ws; plus dot; AssertEnd];
    (* /^(.+?)\((\d+)\)\s+\(.+\)\s*$/ *)
    seq [AssertStart; Group 1 (plusLazy dot); ch "("; Group 2 (plus digit);
         ch ")"; plus ws; ch "("; plus dot; ch ")"; star ws; AssertEnd];
    (* /^(.+?)\((\d+)\)\s+.+$/ *)
    seq [AssertStart; Group 1 (plusLazy dot); ch "("; Group 2 (plus digit);
         ch ")"; plus ws; plus dot; AssertEnd];
    (* /^(.+?)\((\d+)\)\S.+$/ *)
    seq [AssertStart; Group 1 (plusLazy dot); ch "("; Group 2 (plus digit);
         ch ")"; Class nonWs; plus dot; AssertEnd];
    (* /^(.+?[^\d\s])(\d+)\s+.+\s*\(.+\)\s*$/ *)
    seq [AssertStart;
         Group 1 (Seq (plusLazy dot) (Class (fun c => negb (digit c || ws c))));
         Group 2 (plus digit); plus ws; plus dot; star ws; ch "("; plus dot;
         ch ")"; star ws; AssertEnd];
    (* /^(.+?)\s*\((\d+)\)\s*$/ *)
    seq [AssertStart; Group 1 (plusLazy dot); star ws; ch "(";
         Group 2 (plus digit); ch ")"; star ws; AssertEnd];
    (* /^(.+?)\s+(\d+)\s*\(.+\)\s*$/ *)
    seq [AssertStart; Group 1 (plusLazy dot); plus ws; Group 2 (plus digit);
         star ws; ch "("; plus dot; ch ")"; star ws; AssertEnd];
    (* /^(.+?)\s+(\d+)\s*$/ *)
    seq [AssertStart; Group 1 (plusLazy dot); plus ws; Group 2 (plus digit);
         star ws; AssertEnd];
    (* /^(.+?\))(\d+)$/ *)
    seq [AssertStart; Group 1 (Seq (plusLazy dot) (ch ")"));
         Group 2 (plus digit); AssertEnd];
    (* /^(.+?)\s*\(?(上|中|下)\)?\s*$/ *)
    seq [AssertStart; Group 1 (plusLazy dot); star ws; opt (isChar "(");
         Group 2 (alt [ch "上"; ch "中"; ch "下"]); opt (isChar ")"); star ws;
         AssertEnd];
    (* /^(.+?)\s+(一|二|三|四|五|六|七|八|九|十)[ノの]巻\s*$/ *)
    seq [AssertStart; Group 1 (plusLazy dot); plus ws;
         Group 2 (alt [ch "一"; ch "二"; ch "三"; ch "四"; ch "五"; ch "六";
                       ch "七"; ch "八"; ch "九"; ch "十"]);
         Class (fun c => isChar "ノ" c || isChar "の" c); ch "巻"; star ws;
         AssertEnd] ].

(** /^番外編(\d+)巻\s+(.+)$/ *)
Definition prefixVolumePattern : regex :=
  seq [AssertStart; ch "番"; ch "外"; ch "編"; Group 1 (plus digit); ch "巻";
       plus ws; Group 2 (plus dot); AssertEnd].

(** /^(\d+)[~\-]\d+\s+(.+)$/ *)
Definition prefixRangePattern : regex :=
  seq [AssertStart; Group 1 (plus digit);
       Class (fun c => isChar "~" c || isChar "-" c); plus digit; plus ws;
       Group 2 (plus dot); AssertEnd].

(** /[\s:;\-~]+$/ *)
Definition trailingMarks : regex :=
  seq [plus (fun c => ws c || isChar ":" c || isChar ";" c || isChar "-" c
                      || isChar "~" c);
       AssertEnd].

(** The own properties of the object [kanjiToNumber].  The key looked up is
    always group 2 of a volume pattern: a run of digits or one of these
    characters (lemma [patterns_token] below). *)
Definition kanjiToNumber : list (jsstring * Z) :=
  [ (JS.lit "上", 1); (JS.lit "中", 2); (JS.lit "下", 3);
    (JS.lit "一", 1); (JS.lit "二", 2); (JS.lit "三", 3); (JS.lit "四", 4);
    (JS.lit "五", 5); (JS.lit "六", 6); (JS.lit "七", 7); (JS.lit "八", 8);
    (JS.lit "九", 9); (JS.lit "十", 10) ].

Definition lookup (table : list (jsstring * Z)) (key : jsstring) : option Z :=
  snd <$> List.find (fun e => bool_decide (e.1 = key)) table.

(** A volume token: a string that starts with a digit, or a key of
    [kanjiToNumber]. *)
Definition token (w : jsstring) : Prop :=
  (exists c r, w = c :: r /\ JS.isDigit c = true)
  \/ is_Some (lookup kanjiToNumber w).

(** The body of the loop over [patterns], for a pattern that matched. *)
Definition volumeOf (m : found) : Extracted.t :=
  let volumeStr := group 2 m in
  let volumeNumber :=
    match lookup kanjiToNumber volumeStr with
    | Some n => JS.Fin n
    | None => JS.parseInt volumeStr
    end in
  let cleanTitle := JS.trim (group 1 m) in
  let cleanTitle := JS.trim (removeFirst trailingMarks cleanTitle) in
  {| Extracted.volumeNumber := Some volumeNumber;
     Extracted.normalizedTitle := cleanTitle |}.

(** [for (const pattern of patterns)]: the first pattern that matches
    decides. *)
Fixpoint firstMatch (ps : list regex) (normalizedTitle : jsstring) : option found :=
  match ps with
  | [] => None
  | pattern :: ps' =>
      match exec pattern normalizedTitle with
      | Some m => Some m
      | None => firstMatch ps' normalizedTitle
      end
  end.

Definition extractVolumeNumber (title : jsstring) : Extracted.t :=
  match title with
  | [] => {| Extracted.volumeNumber := None; Extracted.normalizedTitle := [] |}
  | _ =>
      let normalizedTitle := normalizeString title in
      match exec prefixVolumePattern normalizedTitle with
      | Some prefixVolumeMatch =>
          {| Extracted.volumeNumber := Some (JS.parseInt (group 1 prefixVolumeMatch));
             Extracted.normalizedTitle := JS.trim (group 2 prefixVolumeMatch) |}
      | None =>
      match exec prefixRangePattern normalizedTitle with
      | Some prefixRangeMatch =>
          {| Extracted.volumeNumber := Some (JS.parseInt (group 1 prefixRangeMatch));
             Extracted.normalizedTitle := JS.trim (group 2 prefixRangeMatch) |}
      | None =>
      match firstMatch patterns normalizedTitle with
      | Some m => volumeOf m
      | None =>
          {| Extracted.volumeNumber := None;
             Extracted.normalizedTitle := JS.trim normalizedTitle |}
      end end end
  end.

Section Methods.

(** [String.prototype.toLowerCase] is defined by the case tables of Unicode.
    The development is parametric in it; where a statement depends on its
    value, the behaviour on the characters involved is a hypothesis
    ([lowerCaseSpec] below). *)
Variable toLowerCase : jsstring -> jsstring.

(** ** normalizeForId and generateSeriesId *)

(** The character class of the last replacement of [normalizeForId]: white
    space, hyphen, colon, semicolon, middle dots, ideographic comma and full
    stop, comma, full stop, exclamation and question marks, single and
    double quote (code unit 34), round, square and angle brackets. *)
Definition isIdNoise (c : Z) : bool :=
  ws c || isChar "-" c || isChar ":" c || isChar ";" c || isChar "·" c
  || isChar "・" c || isChar "、" c || isChar "。" c || isChar "," c
  || isChar "." c || isChar "!" c || isChar "?" c || isChar "'" c
  || (c =? 34) || isChar "(" c || isChar ")" c || isChar "[" c
  || isChar "]" c || isChar "<" c || isChar ">" c.

Definition normalizeForId (str : jsstring) : jsstring :=
  match str with
  | [] => []
  | _ =>
      let normalized := normalizeString str in
      JS.trim (JS.removeEach isIdNoise (toLowerCase normalized))
  end.

Definition generateSeriesId (normalizedTitle : jsstring) (authors : jsstring)
    : jsstring :=
  let normalizedTitleForId := normalizeForId normalizedTitle in
  normalizedTitleForId.

(** ** detectAndGroupSeries *)

(** The callback of [books.forEach]. *)
Definition addBook (m : seriesMap) (book : Book.t) : seriesMap :=
  if negb (truthy (Book.title book)) || negb (truthy (Book.authors book))
  then m
  else
    let title := default [] (Book.title book) in
    let authors := default [] (Book.authors book) in
    let ex := extractVolumeNumber title in
    match Extracted.volumeNumber ex with
    | None => m
    | Some _ =>
        let seriesId := generateSeriesId (Extracted.normalizedTitle ex) authors in
        let m1 :=
          if negb (has m seriesId)
          then set m seriesId
                 {| SeriesData.seriesId := seriesId;
                    SeriesData.seriesName := Extracted.normalizedTitle ex;
                    SeriesData.authors := authors;
                    SeriesData.volumes := [] |}
          else m in
        pushVolume m1 seriesId
          {| Volume.book := book;
             Volume.volumeNumber := Extracted.volumeNumber ex |}
    end.

(** The comparator given to [sort]. *)
Definition compareVolumes (a b : Volume.t) : JS.number :=
  match Volume.volumeNumber a, Volume.volumeNumber b with
  | None, _ => JS.Fin 1
  | _, None => JS.Fin (-1)
  | Some x, Some y => JS.sub x y
  end.

(** The callback of [seriesMap.forEach]; [groups] and [index] are the
    references held by [this.seriesGroups] and [this.bookToSeriesMap].  A
    series that is kept has two volumes at least, so [volumes[0]] exists. *)
Definition emitSeries (groups index : loc) (h : heap)
    (entry : jsstring * SeriesData.t) : heap :=
  let '(seriesId, seriesData) := entry in
  if (2 <=? length (SeriesData.volumes seriesData))%nat then
    let volumes := sortBy compareVolumes (SeriesData.volumes seriesData) in
    match volumes with
    | [] => h
    | v0 :: _ =>
        let representativeBook := Volume.book v0 in
        let seriesInfo :=
          {| SeriesInfo.seriesId := seriesId;
             SeriesInfo.seriesName := SeriesData.seriesName seriesData;
             SeriesInfo.authors := SeriesData.authors seriesData;
             SeriesInfo.volumes := volumes;
             SeriesInfo.representativeBook := representativeBook;
             SeriesInfo.totalVolumes := length volumes |} in
        let h1 := push h groups seriesInfo in
        fold_left
          (fun h v => mapSet h index (Book.asin (Volume.book v)) seriesId)
          volumes h1
    end
  else h.

Definition detectAndGroupSeries (st : state) (books : list Book.t)
    : state * Detected.t :=
  let self := this st in
  if SeriesManager.cacheValid self
     && (0 <? length (arrayAt (store st) (SeriesManager.seriesGroups self)))%nat
  then
    (st, {| Detected.seriesGroups := SeriesManager.seriesGroups self;
            Detected.bookToSeriesMap := SeriesManager.bookToSeriesMap self |})
  else
    let seriesMap := fold_left addBook books [] in
    let '(h1, groups) := alloc (store st) (ArrayObj []) in
    let '(h2, index) := alloc h1 (MapObj ∅) in
    let h3 := fold_left (emitSeries groups index) seriesMap h2 in
    ({| store := h3;
        this := {| SeriesManager.seriesGroups := groups;
                   SeriesManager.bookToSeriesMap := index;
                   SeriesManager.cacheValid := true |} |},
     {| Detected.seriesGroups := groups;
        Detected.bookToSeriesMap := index |}).

(** ** getSeriesProgress *)

(** The argument of [getSeriesProgress]: [null] or [undefined], or an object
    whose [volumes] property may be missing. *)
Inductive seriesArg :=
| Nullish
| Object (volumes : option (list Volume.t)).

Definition isRead (book : Book.t) : bool :=
  match Book.readStatus book with
  | Some (c :: r) => bool_decide (toLowerCase (c :: r) = JS.lit "read")
  | _ => false
  end.

Definition getSeriesProgress (series : seriesArg) : SeriesProgress.t :=
  match series with
  | Nullish | Object None =>
      {| SeriesProgress.total := 0; SeriesProgress.read := 0;
         SeriesProgress.unread := 0 |}
  | Object (Some volumes) =>
      let total := Z.of_nat (length volumes) in
      let read :=
        fold_left
          (fun read v => if isRead (Volume.book v) then read + 1 else read)
          volumes 0 in
      {| SeriesProgress.total := total; SeriesProgress.read := read;
         SeriesProgress.unread := total - read |}
  end.

(** ** getSeriesById, getSeriesByBookAsin *)

Definition getSeriesById (st : state) (seriesId : jsstring)
    : option SeriesInfo.t :=
  List.find (fun s => bool_decide (SeriesInfo.seriesId s = seriesId))
    (arrayAt (store st) (SeriesManager.seriesGroups (this st))).

Definition getSeriesByBookAsin (st : state) (asin : jsstring)
    : option SeriesInfo.t :=
  match mapAt (store st) (SeriesManager.bookToSeriesMap (this st)) !! asin with
  | None | Some [] => None
  | Some seriesId => getSeriesById st seriesId
  end.

(** ** constructor, clearCache *)

Definition reset (h : heap) : state :=
  let '(h1, groups) := alloc h (ArrayObj []) in
  let '(h2, index) := alloc h1 (MapObj ∅) in
  {| store := h2;
     this := {| SeriesManager.seriesGroups := groups;
                SeriesManager.bookToSeriesMap := index;
                SeriesManager.cacheValid := false |} |}.

(** [new SeriesManager()] in a heap [h]. *)
Definition constructor (h : heap) : state := reset h.

Definition clearCache (st : state) : state := reset (store st).

End Methods.

(** ** What a computation stores

    The two loops of [detectAndGroupSeries] as functions of the book list:
    the content of [seriesMap] after the first loop, the series list and the
    index that the second loop builds.  They are the vocabulary of the
    statements; [detect_miss] relates them to the heap. *)

Definition collect (toLowerCase : jsstring -> jsstring) (books : list Book.t)
    : seriesMap :=
  fold_left (addBook toLowerCase) books [].

Definition seriesInfoOf (entry : jsstring * SeriesData.t) : option SeriesInfo.t :=
  if (2 <=? length (SeriesData.volumes entry.2))%nat then
    let volumes := sortBy compareVolumes (SeriesData.volumes entry.2) in
    match volumes with
    | [] => None
    | v0 :: _ =>
        Some {| SeriesInfo.seriesId := entry.1;
                SeriesInfo.seriesName := SeriesData.seriesName entry.2;
                SeriesInfo.authors := SeriesData.authors entry.2;
                SeriesInfo.volumes := volumes;
                SeriesInfo.representativeBook := Volume.book v0;
                SeriesInfo.totalVolumes := length volumes |}
    end
  else None.

Definition register (index : gmap jsstring jsstring) (s : SeriesInfo.t)
    : gmap jsstring jsstring :=
  fold_left (fun index v => <[Book.asin (Volume.book v) := SeriesInfo.seriesId s]> index)
    (SeriesInfo.volumes s) index.

Definition groupsFrom (toLowerCase : jsstring -> jsstring) (books : list Book.t)
    : list SeriesInfo.t :=
  omap seriesInfoOf (collect toLowerCase books).

Definition indexFrom (groups : list SeriesInfo.t) : gmap jsstring jsstring :=
  fold_left register groups ∅.

(** The identifiers of the books of a series. *)
Definition members (s : SeriesInfo.t) : list jsstring :=
  List.map (fun v => Book.asin (Volume.book v)) (SeriesInfo.volumes s).

(** The series list and the index that a result refers to. *)
Definition seriesList (st : state) (r : Detected.t) : list SeriesInfo.t :=
  arrayAt (store st) (Detected.seriesGroups r).

Definition seriesIndex (st : state) (r : Detected.t) : gmap jsstring jsstring :=
  mapAt (store st) (Detected.bookToSeriesMap r).

(** ** Series candidates

    What the first loop takes from one book: nothing when the book is
    skipped, otherwise the key of its series, the name and the authors that a
    new entry gets, and the element for [volumes]. *)
Module Candidate.
Record t := {
  seriesId : jsstring;
  seriesName : jsstring;
  authors : jsstring;
  volume : Volume.t
}.
End Candidate.

Definition candidate (toLowerCase : jsstring -> jsstring) (book : Book.t)
    : option Candidate.t :=
  if truthy (Book.title book) && truthy (Book.authors book) then
    let ex := extractVolumeNumber (default [] (Book.title book)) in
    match Extracted.volumeNumber ex with
    | None => None
    | Some _ =>
        Some {| Candidate.seriesId :=
                  generateSeriesId toLowerCase (Extracted.normalizedTitle ex)
                    (default [] (Book.authors book));
                Candidate.seriesName := Extracted.normalizedTitle ex;
                Candidate.authors := default [] (Book.authors book);
                Candidate.volume :=
                  {| Volume.book := book;
                     Volume.volumeNumber := Extracted.volumeNumber ex |} |}
    end
  else None.

(** The candidates of a book list that have the key [k], in the order of the
    list. *)
Definition bucket (toLowerCase : jsstring -> jsstring) (k : jsstring)
    (books : list Book.t) : list Volume.t :=
  omap (fun b =>
          match candidate toLowerCase b with
          | Some c =>
              if bool_decide (Candidate.seriesId c = k)
              then Some (Candidate.volume c) else None
          | None => None
          end) books.

(** The content of [seriesMap] after the first loop over [books]: distinct
    keys; the entry of a key holds the candidates with that key, in the order
    of the books, and a name that normalizes to the key; a key is present
    when it has a candidate. *)
Record collected (toLowerCase : jsstring -> jsstring)
    (books : list Book.t) (m : seriesMap) : Prop := {
  keys_distinct : List.NoDup (List.map fst m);
  entry_bucket : forall k d, In (k, d) m ->
    SeriesData.seriesId d = k
    /\ SeriesData.volumes d = bucket toLowerCase k books
    /\ normalizeForId toLowerCase (SeriesData.seriesName d) = k
    /\ SeriesData.volumes d <> [];
  key_present : forall k, bucket toLowerCase k books <> [] -> In k (List.map fst m)
}.

(** ** The order of a [volumes] array

    Numbers in increasing order, a missing number after every number.  NaN
    is below and above nothing. *)
Definition numberLe (x y : JS.number) : Prop :=
  match x, y with
  | JS.NaN, _ | _, JS.NaN => False
  | JS.Fin a, JS.Fin b => a <= b
  | JS.Inf true, _ => True
  | _, JS.Inf false => True
  | _, _ => False
  end.

Definition volumeLe (a b : Volume.t) : Prop :=
  match Volume.volumeNumber a, Volume.volumeNumber b with
  | _, None => True
  | None, Some _ => False
  | Some x, Some y => numberLe x y
  end.

(** A volume number that is a number: no NaN. *)
Definition numbered (v : Volume.t) : Prop :=
  Volume.volumeNumber v <> Some JS.NaN.

(** The volumes of a list that carry the volume number [n], in list order. *)
Definition withNumber (n : option JS.number) (l : list Volume.t) : list Volume.t :=
  List.filter (fun v => bool_decide (Volume.volumeNumber v = n)) l.

(** The test at the head of [detectAndGroupSeries]: the cache is valid and
    its series list is not empty. *)
Definition cacheServes (st : state) : bool :=
  SeriesManager.cacheValid (this st)
  && (0 <? length (arrayAt (store st) (SeriesManager.seriesGroups (this st))))%nat.

(** The result object that hands out the references of the cache. *)
Definition cached (st : state) : Detected.t :=
  {| Detected.seriesGroups := SeriesManager.seriesGroups (this st);
     Detected.bookToSeriesMap := SeriesManager.bookToSeriesMap (this st) |}.

(** The index agrees with the series list: a key is a member of exactly one
    series, whose identifier is the value; every member is a key; an
    identifier that is in no series is not a key. *)
Definition indexConsistent (groups : list SeriesInfo.t)
    (index : gmap jsstring jsstring) : Prop :=
  (forall a sid, index !! a = Some sid ->
     exists s, In s groups /\ In a (members s) /\ SeriesInfo.seriesId s = sid
               /\ forall s', In s' groups -> In a (members s') -> s' = s)
  /\ (forall s a, In s groups -> In a (members s) ->
        index !! a = Some (SeriesInfo.seriesId s))
  /\ (forall a, (forall s, In s groups -> ~ In a (members s)) -> index !! a = None).

(** ** Callers

    The states of a manager that its callers can produce: a new instance,
    then any sequence of [detectAndGroupSeries] and [clearCache].  [ok] is
    the contract on the book lists that are passed. *)
Inductive reachable (toLowerCase : jsstring -> jsstring)
    (ok : list Book.t -> Prop) : state -> Prop :=
| reach_new h : reachable toLowerCase ok (constructor h)
| reach_detect st books :
    reachable toLowerCase ok st -> ok books ->
    reachable toLowerCase ok (detectAndGroupSeries toLowerCase st books).1
| reach_clear st :
    reachable toLowerCase ok st -> reachable toLowerCase ok (clearCache st).

(** The same states, by the calls that lead to them: the state of a manager
    created in the heap [h] after a sequence of calls. *)
Inductive call :=
| Detect (books : list Book.t)
| Clear.

Definition step (toLowerCase : jsstring -> jsstring) (st : state) (c : call)
    : state :=
  match c with
  | Detect books => (detectAndGroupSeries toLowerCase st books).1
  | Clear => clearCache st
  end.

Definition after (toLowerCase : jsstring -> jsstring) (h : heap)
    (calls : list call) : state :=
  fold_left (step toLowerCase) calls (constructor h).

(** Every book list passed in a sequence of calls meets the contract [ok]. *)
Definition callsMeet (ok : list Book.t -> Prop) (calls : list call) : Prop :=
  Forall (fun c => match c with Detect books => ok books | Clear => True end) calls.

(** Identifiers are unique: two records of a list with the same identifier
    are the same record (a record may occur twice). *)
Definition uniqueIds (books : list Book.t) : Prop :=
  forall b1 b2, In b1 books -> In b2 books ->
    Book.asin b1 = Book.asin b2 -> b1 = b2.

Definition anyBooks (books : list Book.t) : Prop := True.

(** ** Case conversion on the characters of the examples

    On a string of ASCII characters, kana and CJK ideographs, [toLowerCase]
    changes the letters [A]-[Z] and nothing else. *)
Definition isPlain (c : Z) : bool :=
  ((0 <=? c) && (c <? 128)) || ((12352 <=? c) && (c <=? 12543))
  || ((19968 <=? c) && (c <=? 40959)).

Definition lowerCaseSpec (toLowerCase : jsstring -> jsstring) : Prop :=
  forall s, forallb isPlain s = true -> toLowerCase s = List.map JS.lowerAscii s.

(** The instance used to evaluate examples. *)
Definition lowerPlain : jsstring -> jsstring := List.map JS.lowerAscii.

(** ** Books of the examples *)

(** A book with identifier, title and authors, and no read status. *)
Definition aBook (asin title authors : string) : Book.t :=
  {| Book.asin := JS.lit asin; Book.title := Some (JS.lit title);
     Book.authors := Some (JS.lit authors); Book.readStatus := None |}.
Arguments aBook (asin title authors)%_string_scope.

(** Three volumes out of order, and a book that is no volume. *)
Definition shelf : list Book.t :=
  [ aBook "B003" "ドラゴン物語(3) 完結編" "山田";
    aBook "B000" "独立した本" "佐藤";
    aBook "B001" "ドラゴン物語(1)" "山田";
    aBook "B002" "ドラゴン物語(2)" "山田" ].

(** A book that is no volume. *)
Definition lone : Book.t := aBook "B000" "独立した本" "佐藤".

(** Two records that share the identifier "B001", in two series. *)
Definition twins : list Book.t :=
  [ aBook "B001" "ドラゴン物語(1)" "山田";
    aBook "B002" "ドラゴン物語(2)" "山田";
    aBook "B001" "別の物語 1" "鈴木";
    aBook "B004" "別の物語 2" "鈴木" ].

Definition colon27 : Book.t := aBook "B027" "シリーズ名 : 27 サブタイトル" "著者".
Definition paren28 : Book.t := aBook "B028" "シリーズ名(28)サブタイトル2" "著者".
Definition tilde1 : Book.t := aBook "B101" "~ 1" "著者".
Definition tilde2 : Book.t := aBook "B102" "~ 2" "著者".

(** The state and the result of a first call on [shelf]. *)
Definition shelfRun : state * Detected.t :=
  detectAndGroupSeries lowerPlain (constructor []) shelf.

(** The state and the result of a first call on [twins]. *)
Definition twinsRun : state * Detected.t :=
  detectAndGroupSeries lowerPlain (constructor []) twins.

(** The state and the result of a first call on [lone], and of a second call
    on [shelf]. *)
Definition loneRun : state * Detected.t :=
  detectAndGroupSeries lowerPlain (constructor []) [lone].

Definition loneThenShelf : state * Detected.t :=
  detectAndGroupSeries lowerPlain loneRun.1 shelf.

(** The series that the call finds. *)
Definition dragon : SeriesInfo.t :=
  {| SeriesInfo.seriesId := JS.lit "ドラゴン物語";
     SeriesInfo.seriesName := JS.lit "ドラゴン物語";
     SeriesInfo.authors := JS.lit "山田";
     SeriesInfo.volumes :=
       [ {| Volume.book := aBook "B001" "ドラゴン物語(1)" "山田";
            Volume.volumeNumber := Some (JS.Fin 1) |};
         {| Volume.book := aBook "B002" "ドラゴン物語(2)" "山田";
            Volume.volumeNumber := Some (JS.Fin 2) |};
         {| Volume.book := aBook "B003" "ドラゴン物語(3) 完結編" "山田";
            Volume.volumeNumber := Some (JS.Fin 3) |} ];
     SeriesInfo.representativeBook := aBook "B001" "ドラゴン物語(1)" "山田";
     SeriesInfo.totalVolumes := 3 |}.

(** The two books of the empty series name, and two books of another
    series, the first of which shares the identifier "B101". *)
Definition mixed : list Book.t :=
  [ tilde1; tilde2;
    aBook "B101" "別の物語 1" "鈴木";
    aBook "B104" "別の物語 2" "鈴木" ].

(** The state and the result of a first call on [tilde1] and [tilde2], and
    on [mixed]. *)
Definition tildeRun : state * Detected.t :=
  detectAndGroupSeries lowerPlain (constructor []) [tilde1; tilde2].

Definition mixedRun : state * Detected.t :=
  detectAndGroupSeries lowerPlain (constructor []) mixed.

(** A volume whose book has the read status [status]. *)
Definition aVolume (asin status : string) : Volume.t :=
  {| Volume.book :=
       {| Book.asin := JS.lit asin; Book.title := Some (JS.lit "ドラゴン物語");
          Book.authors := Some (JS.lit "山田");
          Book.readStatus := Some (JS.lit status) |};
     Volume.volumeNumber := None |}.
Arguments aVolume (asin status)%_string_scope.

(** Four volumes: two are read, one is not, one has no read status. *)
Definition statuses : list Volume.t :=
  [ aVolume "B001" "READ"; aVolume "B002" "Read"; aVolume "B003" "UNKNOWN";
    {| Volume.book := lone; Volume.volumeNumber := None |} ].

(** ** Vocabulary of the further properties *)

(** A volume count: an integer that is not negative, or the positive
    infinity that [parseInt] gives for a very long run of digits. *)
Definition isCount (n : JS.number) : Prop :=
  match n with
  | JS.Fin z => 0 <= z
  | JS.Inf negative => negative = false
  | JS.NaN => False
  end.

(** The characters that the volume patterns look for in a normalized title:
    a digit, or one of the characters of [kanjiToNumber]. *)
Definition isVolumeMark (c : Z) : bool :=
  JS.isDigit c
  || match lookup kanjiToNumber [c] with Some _ => true | None => false end.

(** The same in a title as given: a full-width digit counts as well. *)
Definition isVolumeMarkIn (c : Z) : bool :=
  isVolumeMark c || ((JS.chr "０" <=? c) && (c <=? JS.chr "９")).

(** A string in normal form: no character that [normalizeString] replaces,
    white space only as single spaces, and none at either end. *)
Definition normalized (s : jsstring) : Prop :=
  Forall clean s /\ tidy false s /\ JS.trim s = s.

(** [within s w]: the string [w] is a part of [s], in one piece. *)
Definition within (s w : jsstring) : Prop := exists a b, s = a ++ w ++ b.

(* ===================================================================== *)
(** * The heap after a computation                                         *)
(* ===================================================================== *)

Section Heap.
Implicit Types (h : heap) (a : list SeriesInfo.t) (mp : gmap jsstring jsstring).

Lemma arrayAt_tail h a mp :
  arrayAt (h ++ [ArrayObj a; MapObj mp]) (length h) = a.
Proof.
  unfold arrayAt. rewrite lookup_app_r by lia.
  replace (length h - length h)%nat with 0%nat by lia. reflexivity.
Qed.

Lemma mapAt_tail h a mp :
  mapAt (h ++ [ArrayObj a; MapObj mp]) (S (length h)) = mp.
Proof.
  unfold mapAt. rewrite lookup_app_r by lia.
  replace (S (length h) - length h)%nat with 1%nat by lia. reflexivity.
Qed.

Lemma push_tail h a mp x :
  push (h ++ [ArrayObj a; MapObj mp]) (length h) x
  = h ++ [ArrayObj (a ++ [x]); MapObj mp].
Proof.
  unfold push. rewrite arrayAt_tail.
  rewrite insert_app_r_alt by lia.
  replace (length h - length h)%nat with 0%nat by lia. reflexivity.
Qed.

Lemma mapSet_tail h a mp k v :
  mapSet (h ++ [ArrayObj a; MapObj mp]) (S (length h)) k v
  = h ++ [ArrayObj a; MapObj (<[k := v]> mp)].
Proof.
  unfold mapSet. rewrite mapAt_tail.
  rewrite insert_app_r_alt by lia.
  replace (S (length h) - length h)%nat with 1%nat by lia. reflexivity.
Qed.

Lemma mapSet_fold h a sid (vs : list Volume.t) : forall mp,
  fold_left (fun h' v => mapSet h' (S (length h)) (Book.asin (Volume.book v)) sid)
    vs (h ++ [ArrayObj a; MapObj mp])
  = h ++ [ArrayObj a;
          MapObj (fold_left
                    (fun index v => <[Book.asin (Volume.book v) := sid]> index)
                    vs mp)].
Proof.
  induction vs as [|v vs IH]; intros mp; simpl; [reflexivity|].
  rewrite mapSet_tail. apply IH.
Qed.

(** One step of the second loop, on the two cells that the call allocated. *)
Lemma emitSeries_tail h a mp entry :
  emitSeries (length h) (S (length h)) (h ++ [ArrayObj a; MapObj mp]) entry
  = h ++ [ArrayObj (a ++ option_list (seriesInfoOf entry));
          MapObj (from_option (register mp) mp (seriesInfoOf entry))].
Proof.
  destruct entry as [sid d]. unfold emitSeries, seriesInfoOf. cbn [fst snd].
  destruct (2 <=? length (SeriesData.volumes d))%nat;
    [|cbn [option_list from_option]; rewrite app_nil_r; reflexivity].
  destruct (sortBy compareVolumes (SeriesData.volumes d)) as [|v vs] eqn:E;
    cbn [option_list from_option].
  - rewrite app_nil_r. reflexivity.
  - rewrite push_tail. unfold register. cbn [SeriesInfo.volumes SeriesInfo.seriesId].
    apply mapSet_fold.
Qed.

Lemma emitSeries_fold h (m : seriesMap) : forall a mp,
  fold_left (emitSeries (length h) (S (length h))) m (h ++ [ArrayObj a; MapObj mp])
  = h ++ [ArrayObj (a ++ omap seriesInfoOf m);
          MapObj (fold_left register (omap seriesInfoOf m) mp)].
Proof.
  induction m as [|e m IH]; intros a mp; simpl.
  - rewrite app_nil_r. reflexivity.
  - rewrite emitSeries_tail, IH.
    destruct (seriesInfoOf e) as [s|]; simpl.
    + rewrite <- app_assoc. reflexivity.
    + rewrite app_nil_r. reflexivity.
Qed.

End Heap.

(* ===================================================================== *)
(** * The two paths of detectAndGroupSeries                                *)
(* ===================================================================== *)

Section Detect.
Variable toLowerCase : jsstring -> jsstring.
Local Abbreviation detect := (detectAndGroupSeries toLowerCase) (only parsing).

Lemma detect_hit st books :
  cacheServes st = true -> detect st books = (st, cached st).
Proof.
  unfold cacheServes, detectAndGroupSeries, cached. intros ->. reflexivity.
Qed.

(** A computation allocates two cells at the end of the heap and leaves the
    older cells as they are. *)
Lemma detect_miss st books :
  cacheServes st = false ->
  detect st books
  = ({| store := store st ++ [ArrayObj (groupsFrom toLowerCase books);
                              MapObj (indexFrom (groupsFrom toLowerCase books))];
        this := {| SeriesManager.seriesGroups := length (store st);
                   SeriesManager.bookToSeriesMap := S (length (store st));
                   SeriesManager.cacheValid := true |} |},
     {| Detected.seriesGroups := length (store st);
        Detected.bookToSeriesMap := S (length (store st)) |}).
Proof.
  unfold cacheServes, detectAndGroupSeries. intros ->.
  unfold alloc. rewrite length_app, Nat.add_1_r.
  rewrite <- app_assoc. cbn [app].
  rewrite emitSeries_fold. reflexivity.
Qed.

(** After a call the cache is valid and holds what the call returned. *)
Lemma detect_cached st books :
  cached (detect st books).1 = (detect st books).2
  /\ SeriesManager.cacheValid (this (detect st books).1) = true.
Proof.
  destruct (cacheServes st) eqn:E.
  - rewrite detect_hit by exact E. split; [reflexivity|].
    unfold cacheServes in E. apply andb_true_iff in E. apply E.
  - rewrite detect_miss by exact E. split; reflexivity.
Qed.

Lemma cacheServes_after st books :
  cacheServes (detect st books).1
  = negb (bool_decide (seriesList (detect st books).1 (detect st books).2 = [])).
Proof.
  destruct (detect_cached st books) as [Hc Hv].
  unfold cacheServes, seriesList. rewrite Hv, <- Hc. cbn [cached Detected.seriesGroups].
  destruct (arrayAt _ _); reflexivity.
Qed.

Lemma cacheServes_reset h : cacheServes (reset h) = false.
Proof. reflexivity. Qed.

End Detect.

(* ===================================================================== *)
(** * Sorting                                                              *)
(* ===================================================================== *)

Lemma toDouble_negative z : JS.isNegative (JS.toDouble z) = (z <? 0).
Proof.
  unfold JS.toDouble.
  destruct (Z.abs z <? 2 ^ 53) eqn:Hs; [reflexivity|].
  apply Z.ltb_ge in Hs.
  set (a := Z.abs z) in *. set (e := Z.log2 a - 52).
  assert (Ha : 0 < a) by lia.
  assert (He : 0 <= e).
  { assert (53 <= Z.log2 a) by (apply Z.log2_le_pow2; lia). lia. }
  assert (Hpe : 0 < 2 ^ e) by (apply Z.pow_pos_nonneg; lia).
  assert (Hle : 2 ^ e <= a).
  { transitivity (2 ^ Z.log2 a).
    - apply Z.pow_le_mono_r; lia.
    - apply Z.log2_spec. lia. }
  assert (Hq : 0 < a / 2 ^ e) by (apply Z.div_str_pos; lia).
  cbv zeta.
  match goal with |- context [if ?c then a / 2 ^ e + 1 else a / 2 ^ e] =>
    set (q' := if c then a / 2 ^ e + 1 else a / 2 ^ e) end.
  assert (Hq' : 0 < q') by (unfold q'; destruct (_ || _); lia).
  destruct (2 ^ 1024 <=? q' * 2 ^ e); [reflexivity|].
  cbn [JS.isNegative].
  assert (0 < q' * 2 ^ e) by (apply Z.mul_pos_pos; lia).
  destruct (Z.ltb_spec z 0); destruct (Z.ltb_spec (Z.sgn z * (q' * 2 ^ e)) 0);
    try reflexivity; exfalso; unfold a in *; nia.
Qed.

Section StableSort.
Context {A : Type} (comparefn : A -> A -> JS.number).
Context (le : A -> A -> Prop) (good : A -> Prop).

Local Abbreviation before x y := (JS.isNegative (comparefn x y)) (only parsing).

Hypothesis before_le : forall x y, good x -> good y -> before x y = true -> le x y.
Hypothesis before_strict :
  forall x y, good x -> good y -> before x y = true -> ~ le y x.
Hypothesis not_before_le :
  forall x y, good x -> good y -> before x y = false -> le y x.
Hypothesis le_trans :
  forall x y z, good x -> good y -> good z -> le x y -> le y z -> le x z.

Lemma insertBy_perm x l : Permutation (insertBy comparefn x l) (x :: l).
Proof.
  induction l as [|y l IH]; cbn [insertBy]; [reflexivity|].
  destruct (before x y); [reflexivity|].
  rewrite IH. apply perm_swap.
Qed.

Lemma sortInto_perm l : forall acc,
  Permutation (fold_left (fun acc x => insertBy comparefn x acc) l acc) (acc ++ l).
Proof.
  induction l as [|x l IH]; intros acc; cbn [fold_left].
  - rewrite app_nil_r. reflexivity.
  - rewrite IH, insertBy_perm. apply Permutation_middle.
Qed.

Lemma sortBy_perm l : Permutation (sortBy comparefn l) l.
Proof. apply (sortInto_perm l []). Qed.

Lemma insertBy_sorted x l :
  good x -> Forall good l -> StronglySorted le l ->
  StronglySorted le (insertBy comparefn x l).
Proof.
  intros Hx Hl Hs. induction Hs as [|y l Hs IH Hy]; cbn [insertBy].
  - constructor; constructor.
  - inversion Hl as [|? ? Hgy Hgl]; subst.
    destruct (before x y) eqn:E.
    + constructor; [constructor; assumption|].
      constructor; [eauto|].
      rewrite List.Forall_forall in *. intros z Hz.
      apply (le_trans x y z); auto.
    + constructor; [auto|].
      rewrite List.Forall_forall in *. intros z Hz.
      apply (Permutation_in _ (insertBy_perm x l)) in Hz.
      destruct Hz as [<-|Hz]; auto.
Qed.

Lemma sortInto_sorted l : forall acc,
  Forall good l -> Forall good acc -> StronglySorted le acc ->
  StronglySorted le (fold_left (fun acc x => insertBy comparefn x acc) l acc).
Proof.
  induction l as [|x l IH]; intros acc Hl Ha Hs; cbn [fold_left]; [assumption|].
  inversion Hl; subst. apply IH; [assumption| |].
  - eapply Permutation_Forall; [symmetry; apply insertBy_perm|].
    constructor; assumption.
  - apply insertBy_sorted; assumption.
Qed.

Lemma sortBy_sorted l : Forall good l -> StronglySorted le (sortBy comparefn l).
Proof. intros Hl. apply sortInto_sorted; [assumption|constructor|constructor]. Qed.

(** Stability, for a class [p] of elements that the order does not
    separate. *)
Section Class.
Variable p : A -> bool.
Hypothesis same_class :
  forall x y z, p x = true -> p z = true -> le y z -> le y x.

Lemma insertBy_filter x l :
  good x -> Forall good l -> StronglySorted le l ->
  List.filter p (insertBy comparefn x l) = List.filter p l ++ List.filter p [x].
Proof.
  intros Hx Hl Hs. induction Hs as [|y l Hs IH Hy]; cbn [insertBy].
  - reflexivity.
  - inversion Hl as [|? ? Hgy Hgl]; subst.
    destruct (before x y) eqn:E.
    + cbn [List.filter app]. destruct (p x) eqn:Px.
      * (* nothing from [y] on is in the class of [x] *)
        assert (Hn : forall z, In z (y :: l) -> p z = false).
        { intros z Hz. destruct (p z) eqn:Pz; [exfalso|reflexivity].
          assert (good z) by (rewrite List.Forall_forall in Hl; auto).
          apply (before_strict x y Hx Hgy E).
          apply (same_class x y z Px Pz).
          destruct Hz as [<-|Hz].
          - destruct (before y y) eqn:Ey.
            + exfalso. apply (before_strict y y); auto.
            + apply not_before_le; auto.
          - rewrite List.Forall_forall in Hy. auto. }
        assert (Hf : List.filter p (y :: l) = []).
        { clear -Hn. induction (y :: l) as [|z r IHr]; [reflexivity|].
          cbn [List.filter]. rewrite (Hn z) by (left; reflexivity).
          apply IHr. intros w Hw. apply Hn. right. exact Hw. }
        cbn [List.filter] in Hf. rewrite Hf. reflexivity.
      * rewrite app_nil_r. reflexivity.
    + cbn [List.filter]. rewrite IH by assumption.
      destruct (p y); reflexivity.
Qed.

Lemma sortInto_filter l : forall acc,
  Forall good l -> Forall good acc -> StronglySorted le acc ->
  List.filter p (fold_left (fun acc x => insertBy comparefn x acc) l acc)
  = List.filter p acc ++ List.filter p l.
Proof.
  induction l as [|x l IH]; intros acc Hl Ha Hs; cbn [fold_left].
  - cbn [List.filter]. rewrite app_nil_r. reflexivity.
  - inversion Hl; subst. rewrite IH; [|assumption| |].
    + rewrite insertBy_filter by assumption.
      rewrite <- app_assoc. cbn [List.filter]. destruct (p x); reflexivity.
    + eapply Permutation_Forall; [symmetry; apply insertBy_perm|].
      constructor; assumption.
    + apply insertBy_sorted; assumption.
Qed.

Lemma sortBy_filter l :
  Forall good l -> List.filter p (sortBy comparefn l) = List.filter p l.
Proof.
  intros Hl. unfold sortBy. rewrite sortInto_filter; auto; constructor.
Qed.

End Class.
End StableSort.


(** ** The comparator of the source *)

Lemma compareVolumes_before a b :
  numbered a -> numbered b ->
  JS.isNegative (compareVolumes a b) = true -> volumeLe a b /\ ~ volumeLe b a.
Proof.
  unfold numbered, compareVolumes, volumeLe.
  destruct (Volume.volumeNumber a) as [[x|[]|]|], (Volume.volumeNumber b) as [[y|[]|]|];
    cbn [JS.sub JS.isNegative numberLe Bool.eqb negb]; intros Ha Hb H;
    try discriminate; try congruence; try tauto.
  rewrite toDouble_negative in H. apply Z.ltb_lt in H. lia.
Qed.

Lemma compareVolumes_not_before a b :
  numbered a -> numbered b ->
  JS.isNegative (compareVolumes a b) = false -> volumeLe b a.
Proof.
  unfold numbered, compareVolumes, volumeLe.
  destruct (Volume.volumeNumber a) as [[x|[]|]|], (Volume.volumeNumber b) as [[y|[]|]|];
    cbn [JS.sub JS.isNegative numberLe Bool.eqb negb]; intros Ha Hb H;
    try discriminate; try congruence; try tauto.
  rewrite toDouble_negative in H. apply Z.ltb_ge in H. lia.
Qed.

Lemma volumeLe_trans a b c :
  numbered a -> numbered b -> numbered c ->
  volumeLe a b -> volumeLe b c -> volumeLe a c.
Proof.
  unfold numbered, volumeLe.
  destruct (Volume.volumeNumber a) as [[x|[]|]|], (Volume.volumeNumber b) as [[y|[]|]|],
    (Volume.volumeNumber c) as [[z|[]|]|];
    cbn [numberLe]; intros; try tauto; try congruence; lia.
Qed.

Lemma sortVolumes_sorted l :
  Forall numbered l -> StronglySorted volumeLe (sortBy compareVolumes l).
Proof.
  apply (sortBy_sorted compareVolumes volumeLe numbered).
  - intros x y Hx Hy H. apply (compareVolumes_before x y Hx Hy H).
  - apply compareVolumes_not_before.
  - apply volumeLe_trans.
Qed.

Lemma sortVolumes_stable n l :
  Forall numbered l ->
  withNumber n (sortBy compareVolumes l) = withNumber n l.
Proof.
  apply (sortBy_filter compareVolumes volumeLe numbered).
  - intros x y Hx Hy H. apply (compareVolumes_before x y Hx Hy H).
  - intros x y Hx Hy H. apply (compareVolumes_before x y Hx Hy H).
  - apply compareVolumes_not_before.
  - apply volumeLe_trans.
  - intros x y z Px Pz. apply bool_decide_eq_true in Px, Pz.
    unfold volumeLe. rewrite Px, Pz. tauto.
Qed.

(** In a sorted array the elements without number are at the end. *)
Lemma sorted_absent_last l :
  StronglySorted volumeLe l ->
  forall l1 v l2, l = l1 ++ v :: l2 -> Volume.volumeNumber v = None ->
    Forall (fun w => Volume.volumeNumber w = None) l2.
Proof.
  intros Hs l1. revert l Hs.
  induction l1 as [|x l1 IH]; intros l Hs v l2 -> Hv; cbn [app] in Hs;
    inversion Hs as [|? ? Hrest Hall]; subst.
  - eapply List.Forall_impl; [|exact Hall].
    intros w. unfold volumeLe. rewrite Hv.
    destruct (Volume.volumeNumber w); [intros []|reflexivity].
  - eapply IH; eauto.
Qed.

Lemma sortVolumes_perm l : Permutation (sortBy compareVolumes l) l.
Proof. apply sortBy_perm. Qed.

Lemma sortVolumes_length l : length (sortBy compareVolumes l) = length l.
Proof. apply Permutation_length, sortVolumes_perm. Qed.

(* ===================================================================== *)
(** * What a match captures                                                *)
(* ===================================================================== *)

Lemma grows_refl r c : (forall i, binds r i = false) -> grows r c c.
Proof.
  intros Hb. split; [auto|].
  intros i [H|H]; [exact H|]. rewrite Hb in H. discriminate.
Qed.

Lemma run_star_nil g p pos c k : run (Star g p) pos [] c k = k pos [] c.
Proof. reflexivity. Qed.

Lemma run_star_cons g p x s pos c k :
  run (Star g p) pos (x :: s) c k
  = if p x then
      if g then
        match run (Star g p) (S pos) s c k with
        | Some m => Some m
        | None => k pos (x :: s) c
        end
      else
        match k pos (x :: s) c with
        | Some m => Some m
        | None => run (Star g p) (S pos) s c k
        end
    else k pos (x :: s) c.
Proof. reflexivity. Qed.

Lemma run_star g p s : forall pos c k res,
  run (Star g p) pos s c k = Some res ->
  exists w s', s = w ++ s' /\ forallb p w = true
               /\ k (pos + length w)%nat s' c = Some res.
Proof.
  induction s as [|x s IH]; intros pos c k res H.
  - rewrite run_star_nil in H. exists [], []. rewrite Nat.add_0_r. auto.
  - rewrite run_star_cons in H.
    assert (Hstop : k pos (x :: s) c = Some res ->
      exists w s', x :: s = w ++ s' /\ forallb p w = true
                   /\ k (pos + length w)%nat s' c = Some res).
    { intros Hk. exists [], (x :: s). rewrite Nat.add_0_r. auto. }
    assert (Hgo : p x = true -> run (Star g p) (S pos) s c k = Some res ->
      exists w s', x :: s = w ++ s' /\ forallb p w = true
                   /\ k (pos + length w)%nat s' c = Some res).
    { intros Px Hr. destruct (IH _ _ _ _ Hr) as (w & s' & -> & Hw & Hk).
      exists (x :: w), s'. cbn [forallb length app]. rewrite Px, Hw.
      rewrite Nat.add_succ_r. auto. }
    destruct (p x) eqn:Px; [|auto].
    destruct g.
    + destruct (run (Star true p) (S pos) s c k) eqn:E; [|auto].
      injection H as ->. auto.
    + destruct (k pos (x :: s) c) eqn:E; [|auto].
      injection H as ->. auto.
Qed.

Lemma run_sound r : forall pos s c k res,
  run r pos s c k = Some res ->
  exists w s' c', s = w ++ s' /\ lang r w /\ grows r c c'
                  /\ k (pos + length w)%nat s' c' = Some res.
Proof.
  induction r as [|p|g p|r1 IH1 r2 IH2|r1 IH1 r2 IH2|i r1 IH1| |];
    intros pos s c k res H.
  - exists [], s, c. rewrite Nat.add_0_r.
    split; [|split; [|split]]; auto using grows_refl. reflexivity.
  - cbn [run] in H. destruct s as [|x s]; [discriminate|].
    destruct (p x) eqn:Px; [|discriminate].
    exists [x], s, c. cbn [length]. rewrite Nat.add_1_r.
    split; [|split; [|split]]; auto using grows_refl. cbn [lang]. eauto.
  - destruct (run_star _ _ _ _ _ _ _ H) as (w & s' & -> & Hw & Hk).
    exists w, s', c. split; [|split; [|split]]; auto using grows_refl.
  - cbn [run] in H.
    destruct (IH1 _ _ _ _ _ H) as (w1 & s1 & c1 & -> & L1 & [G1 B1] & H1).
    destruct (IH2 _ _ _ _ _ H1) as (w2 & s2 & c2 & -> & L2 & [G2 B2] & H2).
    exists (w1 ++ w2), s2, c2.
    rewrite length_app, Nat.add_assoc, <- app_assoc.
    repeat split; auto.
    + cbn [lang]. eauto.
    + intros j w Hj. cbn [captured].
      destruct (G2 _ _ Hj) as [Hc|Hc]; [|auto].
      destruct (G1 _ _ Hc); auto.
    + intros j Hj. apply B2. cbn [binds] in Hj.
      destruct (binds r2 j); [auto|]. left. apply B1.
      rewrite orb_false_r in Hj. exact Hj.
  - cbn [run] in H.
    destruct (run r1 pos s c k) eqn:E.
    + injection H as ->.
      destruct (IH1 _ _ _ _ _ E) as (w & s' & c' & -> & L & [G B] & Hk).
      exists w, s', c'. repeat split; auto.
      * cbn [lang]. auto.
      * intros j u Hj. cbn [captured]. destruct (G _ _ Hj); auto.
      * intros j Hj. apply B. cbn [binds] in Hj.
        destruct Hj as [Hj|Hj]; [auto|]. apply andb_true_iff in Hj. tauto.
    + destruct (IH2 _ _ _ _ _ H) as (w & s' & c' & -> & L & [G B] & Hk).
      exists w, s', c'. repeat split; auto.
      * cbn [lang]. auto.
      * intros j u Hj. cbn [captured]. destruct (G _ _ Hj); auto.
      * intros j Hj. apply B. cbn [binds] in Hj.
        destruct Hj as [Hj|Hj]; [auto|]. apply andb_true_iff in Hj. tauto.
  - cbn [run] in H.
    destruct (IH1 _ _ _ _ _ H) as (w & s' & c' & -> & L & [G B] & Hk).
    cbn beta in Hk.
    replace (pos + length w - pos)%nat with (length w) in Hk by lia.
    rewrite firstn_app, Nat.sub_diag, firstn_all in Hk.
    cbn [firstn] in Hk. rewrite app_nil_r in Hk.
    eexists w, s', _. repeat split; [exact L| | |exact Hk].
    + intros j u Hj. cbn [capture captured] in *.
      destruct (Nat.eqb j i) eqn:Eji.
      * apply Nat.eqb_eq in Eji. injection Hj as <-. auto.
      * destruct (G _ _ Hj); auto.
    + intros j Hj. cbn [capture binds] in *.
      destruct (Nat.eqb j i) eqn:Eji; [eauto|].
      apply B. cbn [orb] in Hj. exact Hj.
  - cbn [run] in H. destruct (Nat.eqb pos 0); [|discriminate].
    exists [], s, c. rewrite Nat.add_0_r.
    split; [|split; [|split]]; auto using grows_refl. reflexivity.
  - cbn [run] in H. destruct s; [|discriminate].
    exists [], [], c. rewrite Nat.add_0_r.
    split; [|split; [|split]]; auto using grows_refl. reflexivity.
Qed.

(** A successful search binds every group that the pattern always goes
    through, to a string that the group can capture. *)
Lemma searchFrom_group r i s : forall pos m,
  searchFrom r pos s = Some m -> binds r i = true ->
  captured r i (group i m).
Proof.
  induction s as [|x s IH]; intros pos m H Hb; cbn [searchFrom] in H.
  all: destruct (run r pos _ [] _) as [[e c]|] eqn:E;
    [|first [discriminate | eauto]].
  all: injection H as <-;
    destruct (run_sound _ _ _ _ _ _ E) as (w & s' & c' & _ & _ & [G B] & Hk);
    injection Hk as _ ->;
    destruct (B i (or_intror Hb)) as [u Hu];
    unfold group; cbn [groups]; rewrite Hu; cbn [default];
    destruct (G _ _ Hu) as [Hn|Hc]; [discriminate|exact Hc].
Qed.

Lemma exec_group r i s m :
  exec r s = Some m -> binds r i = true -> captured r i (group i m).
Proof. apply searchFrom_group. Qed.


(* ===================================================================== *)
(** * The volume number of a title is a number                             *)
(* ===================================================================== *)

Lemma lang_digits w :
  lang (plus digit) w -> exists c r, w = c :: r /\ JS.isDigit c = true.
Proof.
  cbn [plus lang]. intros (w1 & w2 & -> & (x & -> & Hx) & _). eauto.
Qed.

Ltac token_cases H :=
  cbn [captured seq alt fold_right fold_left plus plusLazy star opt ch] in H;
  repeat match type of H with
  | _ \/ _ => destruct H as [H|H]
  | False => destruct H
  | (2 = 1)%nat /\ _ => destruct H as [H _]; discriminate H
  | (1 = 2)%nat /\ _ => destruct H as [H _]; discriminate H
  | _ /\ _ => destruct H as [_ H]
  end.

Lemma patterns_token :
  Forall (fun r => binds r 2 = true /\ forall w, captured r 2 w -> token w)
    patterns.
Proof.
  unfold patterns.
  repeat (apply List.Forall_cons; [split; [reflexivity|intros w H]|]);
    [..|apply List.Forall_nil].
  all: token_cases H.
  all: try (left; apply lang_digits; exact H).
  all: right; cbn [lang] in H;
    repeat match type of H with _ \/ _ => destruct H as [H|H] end;
    destruct H as (x & -> & Hx); apply Z.eqb_eq in Hx; subst x;
    vm_compute; eauto.
Qed.

Lemma prefix_patterns_digits :
  (binds prefixVolumePattern 1 = true
   /\ forall w, captured prefixVolumePattern 1 w ->
        exists c r, w = c :: r /\ JS.isDigit c = true)
  /\ (binds prefixRangePattern 1 = true
      /\ forall w, captured prefixRangePattern 1 w ->
           exists c r, w = c :: r /\ JS.isDigit c = true).
Proof.
  split; (split; [reflexivity|intros w H]).
  all: unfold prefixVolumePattern, prefixRangePattern in H.
  all: cbn [captured seq alt fold_right fold_left plus plusLazy star opt ch] in H.
  all: repeat match type of H with
       | _ \/ _ => destruct H as [H|H]
       | False => destruct H
       | (1 = 2)%nat /\ _ => destruct H as [H _]; discriminate H
       | _ /\ _ => destruct H as [_ H]
       end.
  all: apply lang_digits; exact H.
Qed.

Lemma isDigit_not_space c : JS.isDigit c = true -> JS.isWhiteSpace c = false.
Proof. unfold JS.isDigit, JS.isWhiteSpace. lia. Qed.

Lemma digitsFrom_Some s : forall a, is_Some (JS.digitsFrom (Some a) s).
Proof.
  induction s as [|c s IH]; intros a; cbn [JS.digitsFrom]; [eauto|].
  destruct (JS.isDigit c); eauto.
Qed.

Lemma toDouble_number z : JS.toDouble z <> JS.NaN.
Proof.
  unfold JS.toDouble. destruct (Z.abs z <? 2 ^ 53); [discriminate|].
  cbv zeta. destruct (2 ^ 1024 <=? _); discriminate.
Qed.

Lemma parseInt_digit c r : JS.isDigit c = true -> JS.parseInt (c :: r) <> JS.NaN.
Proof.
  intros Hc. unfold JS.parseInt, JS.trimStart. cbn [JS.dropWhile].
  rewrite (isDigit_not_space c Hc).
  assert (H45 : (c =? 45) = false) by (unfold JS.isDigit in Hc; lia).
  assert (H43 : (c =? 43) = false) by (unfold JS.isDigit in Hc; lia).
  rewrite H45, H43. cbn [JS.digitsFrom]. rewrite Hc.
  destruct (digitsFrom_Some r (10 * default 0 None + (c - 48))) as [n ->].
  apply toDouble_number.
Qed.

Lemma token_number w :
  token w ->
  match lookup kanjiToNumber w with
  | Some n => JS.Fin n
  | None => JS.parseInt w
  end <> JS.NaN.
Proof.
  intros Hw. destruct (lookup kanjiToNumber w) eqn:E; [discriminate|].
  destruct Hw as [(c & r & -> & Hc)|[n Hn]]; [|congruence].
  apply parseInt_digit, Hc.
Qed.

Lemma firstMatch_In ps t m :
  firstMatch ps t = Some m -> exists p, In p ps /\ exec p t = Some m.
Proof.
  induction ps as [|p ps IH]; cbn [firstMatch]; [discriminate|].
  destruct (exec p t) eqn:E.
  - intros [= ->]. exists p. split; [left; reflexivity|exact E].
  - intros H. destruct (IH H) as (q & Hq & Hm). exists q. split; [right|]; auto.
Qed.

(** The volume number that [extractVolumeNumber] finds is never NaN. *)
Lemma extract_numbered title n :
  Extracted.volumeNumber (extractVolumeNumber title) = Some n -> n <> JS.NaN.
Proof.
  unfold extractVolumeNumber. destruct title as [|c0 title]; [discriminate|].
  cbv zeta. set (t := normalizeString (c0 :: title)).
  destruct prefix_patterns_digits as [[B1 T1] [B2 T2]].
  destruct (exec prefixVolumePattern t) as [m|] eqn:E1.
  { cbn [Extracted.volumeNumber]. intros [= <-].
    pose proof (exec_group _ _ _ _ E1 B1) as H1.
    destruct (T1 _ H1) as (c & r & Hg & Hc). rewrite Hg.
    apply parseInt_digit, Hc. }
  destruct (exec prefixRangePattern t) as [m|] eqn:E2.
  { cbn [Extracted.volumeNumber]. intros [= <-].
    pose proof (exec_group _ _ _ _ E2 B2) as H2.
    destruct (T2 _ H2) as (c & r & Hg & Hc). rewrite Hg.
    apply parseInt_digit, Hc. }
  destruct (firstMatch patterns t) as [m|] eqn:E3; [|discriminate].
  destruct (firstMatch_In _ _ _ E3) as (p & Hp & Hm).
  pose proof patterns_token as Ht. rewrite List.Forall_forall in Ht.
  destruct (Ht p Hp) as [Bp Tp].
  unfold volumeOf. cbn [Extracted.volumeNumber]. intros [= <-].
  apply token_number, Tp. apply (exec_group p 2%nat t m Hm Bp).
Qed.

(* ===================================================================== *)
(** * The first loop: buckets                                              *)
(* ===================================================================== *)

Section Buckets.
Variable toLowerCase : jsstring -> jsstring.
Local Abbreviation candidate' := (candidate toLowerCase) (only parsing).
Local Abbreviation bucket' := (bucket toLowerCase) (only parsing).

Lemma has_In (m : seriesMap) k : has m k = true <-> In k (List.map fst m).
Proof.
  unfold has. rewrite existsb_exists, in_map_iff. split.
  - intros (e & He & Hk). apply bool_decide_eq_true in Hk. eauto.
  - intros (e & Hk & He). exists e. split; [exact He|].
    apply bool_decide_eq_true. exact Hk.
Qed.

Lemma pushVolume_keys (m : seriesMap) k v :
  List.map fst (pushVolume m k v) = List.map fst m.
Proof.
  unfold pushVolume. rewrite List.map_map. apply List.map_ext.
  intros [k' d]. cbn [fst snd]. destruct (bool_decide (k' = k)); reflexivity.
Qed.

Lemma pushVolume_In (m : seriesMap) k v k' d' :
  In (k', d') (pushVolume m k v) ->
  exists d, In (k', d) m
            /\ d' = if bool_decide (k' = k) then extend d v else d.
Proof.
  unfold pushVolume. rewrite in_map_iff. intros ([k0 d] & He & Hin).
  cbn [fst snd] in He. destruct (bool_decide (k0 = k)) eqn:E.
  - injection He as <- <-. exists d. rewrite E. auto.
  - injection He as <- <-. exists d. rewrite E. auto.
Qed.

Lemma addBook_candidate (m : seriesMap) book :
  addBook toLowerCase m book
  = match candidate' book with
    | None => m
    | Some c =>
        pushVolume
          (if negb (has m (Candidate.seriesId c))
           then set m (Candidate.seriesId c)
                  {| SeriesData.seriesId := Candidate.seriesId c;
                     SeriesData.seriesName := Candidate.seriesName c;
                     SeriesData.authors := Candidate.authors c;
                     SeriesData.volumes := [] |}
           else m)
          (Candidate.seriesId c) (Candidate.volume c)
    end.
Proof.
  unfold addBook, candidate.
  destruct (truthy (Book.title book)), (truthy (Book.authors book));
    cbn [negb orb andb]; try reflexivity.
  destruct (Extracted.volumeNumber _); reflexivity.
Qed.

Lemma bucket_snoc k books book :
  bucket' k (books ++ [book])
  = bucket' k books
    ++ match candidate' book with
       | Some c =>
           if bool_decide (Candidate.seriesId c = k)
           then [Candidate.volume c] else []
       | None => []
       end.
Proof.
  unfold bucket. rewrite omap_app. f_equal. cbn.
  destruct (candidate toLowerCase book) as [c|]; [|reflexivity].
  destruct (bool_decide _); reflexivity.
Qed.

Lemma collect_snoc books book :
  collect toLowerCase (books ++ [book])
  = addBook toLowerCase (collect toLowerCase books) book.
Proof. unfold collect. rewrite fold_left_app. reflexivity. Qed.

Lemma collect_collected books :
  collected toLowerCase books (collect toLowerCase books).
Proof.
  induction books as [|book books IH] using rev_ind.
  - split; cbn.
    + constructor.
    + intros k d [].
    + intros k H. exact (H eq_refl).
  - rewrite collect_snoc, addBook_candidate.
    set (m := collect toLowerCase books) in *.
    destruct IH as [Hnd Hent Hkey].
    destruct (candidate toLowerCase book) as [c|] eqn:Ec.
    2:{ split; [exact Hnd| |].
        - intros k d Hin. rewrite bucket_snoc, Ec, app_nil_r. auto.
        - intros k. rewrite bucket_snoc, Ec, app_nil_r. auto. }
    set (kc := Candidate.seriesId c).
    set (d0 := {| SeriesData.seriesId := kc;
                  SeriesData.seriesName := Candidate.seriesName c;
                  SeriesData.authors := Candidate.authors c;
                  SeriesData.volumes := [] |}).
    set (m1 := if negb (has m kc) then set m kc d0 else m).
    assert (Hname : normalizeForId toLowerCase (Candidate.seriesName c) = kc).
    { unfold kc. unfold candidate in Ec.
      destruct (truthy _ && truthy _); [|discriminate].
      destruct (Extracted.volumeNumber _); [|discriminate].
      injection Ec as <-. reflexivity. }
    assert (Hm1 : In kc (List.map fst m1) /\ List.NoDup (List.map fst m1)
                  /\ forall k d, In (k, d) m1 ->
                       In (k, d) m \/ (k = kc /\ d = d0 /\ bucket toLowerCase kc books = [])).
    { unfold m1. destruct (has m kc) eqn:Eh; cbn [negb].
      - apply has_In in Eh. auto.
      - assert (Hnk : ~ In kc (List.map fst m)).
        { intros H. apply has_In in H. congruence. }
        unfold set. rewrite List.map_app. cbn [List.map fst].
        split; [apply in_or_app; right; left; reflexivity|]. split.
        + apply NoDup_ListNoDup, NoDup_app. split; [|split].
          * apply NoDup_ListNoDup, Hnd.
          * intros x Hx [->|[]]%list_elem_of_In. apply Hnk, list_elem_of_In, Hx.
          * apply NoDup_singleton.
        + intros k d [Hin|[[= <- <-]|[]]]%in_app_or; [auto|].
          right. split; [reflexivity|]. split; [reflexivity|].
          destruct (bucket toLowerCase kc books) eqn:Eb; [reflexivity|].
          exfalso. apply Hnk, Hkey. rewrite Eb. discriminate. }
    destruct Hm1 as (Hin1 & Hnd1 & Hent1).
    split.
    + rewrite pushVolume_keys. exact Hnd1.
    + intros k d' Hin'. apply pushVolume_In in Hin'.
      destruct Hin' as (d & Hd & ->). rewrite bucket_snoc, Ec. fold kc.
      rewrite (bool_decide_ext (kc = k) (k = kc)) by (split; congruence).
      destruct (Hent1 _ _ Hd) as [Hold|(-> & -> & Hb)].
      * destruct (Hent _ _ Hold) as (H1 & H2 & H3 & H4).
        destruct (bool_decide (k = kc)); cbn [extend SeriesData.seriesId
          SeriesData.volumes SeriesData.seriesName].
        -- rewrite H2. repeat split; auto. intros H. apply app_eq_nil in H.
           destruct H; discriminate.
        -- rewrite app_nil_r. auto.
      * rewrite bool_decide_eq_true_2 by reflexivity.
        cbn [extend d0 SeriesData.seriesId SeriesData.volumes SeriesData.seriesName].
        rewrite Hb. repeat split; auto; discriminate.
    + intros k Hk. rewrite pushVolume_keys.
      rewrite bucket_snoc, Ec in Hk. fold kc in Hk.
      destruct (bool_decide (kc = k)) eqn:E.
      * apply bool_decide_eq_true in E. subst k. exact Hin1.
      * rewrite app_nil_r in Hk. apply Hkey in Hk.
        unfold m1. destruct (negb (has m kc)); [|exact Hk].
        unfold set. rewrite List.map_app. apply in_or_app. auto.
Qed.

End Buckets.

(* ===================================================================== *)
(** * The second loop: series and index                                    *)
(* ===================================================================== *)

Section Series.
Variable toLowerCase : jsstring -> jsstring.

Lemma bucket_In k books v :
  In v (bucket toLowerCase k books) ->
  In (Volume.book v) books
  /\ exists c, candidate toLowerCase (Volume.book v) = Some c
               /\ Candidate.seriesId c = k /\ Candidate.volume c = v.
Proof.
  unfold bucket. rewrite <- list_elem_of_In, list_elem_of_omap.
  intros (b & Hb & Hc). apply list_elem_of_In in Hb.
  destruct (candidate toLowerCase b) as [c|] eqn:Ec; [|discriminate].
  destruct (bool_decide (Candidate.seriesId c = k)) eqn:Ek; [|discriminate].
  apply bool_decide_eq_true in Ek. injection Hc as <-.
  assert (Volume.book (Candidate.volume c) = b) as ->.
  { unfold candidate in Ec. destruct (truthy _ && truthy _); [|discriminate].
    destruct (Extracted.volumeNumber _); [|discriminate].
    injection Ec as <-. reflexivity. }
  eauto.
Qed.

Lemma candidate_numbered book c :
  candidate toLowerCase book = Some c -> numbered (Candidate.volume c).
Proof.
  unfold candidate, numbered. destruct (truthy _ && truthy _); [|discriminate].
  destruct (Extracted.volumeNumber _) as [n|] eqn:En; [|discriminate].
  intros [= <-]. cbn [Candidate.volume Volume.volumeNumber].
  intros [= ->]. exact (extract_numbered _ _ En eq_refl).
Qed.

Lemma bucket_numbered k books : Forall numbered (bucket toLowerCase k books).
Proof.
  apply List.Forall_forall. intros v Hv.
  destruct (bucket_In _ _ _ Hv) as (_ & c & Hc & _ & <-).
  exact (candidate_numbered _ _ Hc).
Qed.

(** A series of the list comes from one entry of [seriesMap]. *)
Lemma groupsFrom_entry books s :
  In s (groupsFrom toLowerCase books) ->
  exists d, In (SeriesInfo.seriesId s, d) (collect toLowerCase books)
            /\ seriesInfoOf (SeriesInfo.seriesId s, d) = Some s.
Proof.
  unfold groupsFrom. rewrite <- list_elem_of_In, list_elem_of_omap.
  intros ([k d] & Hin & Hs). apply list_elem_of_In in Hin.
  assert (SeriesInfo.seriesId s = k) as ->.
  { unfold seriesInfoOf in Hs. cbn [fst snd] in Hs.
    destruct (2 <=? _)%nat; [|discriminate].
    destruct (sortBy _ _); [discriminate|]. injection Hs as <-. reflexivity. }
  eauto.
Qed.

(** What a series of the list holds. *)
Lemma groupsFrom_In books s :
  In s (groupsFrom toLowerCase books) ->
  SeriesInfo.volumes s
  = sortBy compareVolumes (bucket toLowerCase (SeriesInfo.seriesId s) books)
  /\ (2 <= length (SeriesInfo.volumes s))%nat
  /\ SeriesInfo.totalVolumes s = length (SeriesInfo.volumes s)
  /\ Some (SeriesInfo.representativeBook s)
     = Volume.book <$> head (SeriesInfo.volumes s)
  /\ normalizeForId toLowerCase (SeriesInfo.seriesName s) = SeriesInfo.seriesId s.
Proof.
  intros Hs. destruct (groupsFrom_entry _ _ Hs) as (d & Hin & Hd).
  destruct (entry_bucket _ _ _ (collect_collected toLowerCase books) _ _ Hin)
    as (_ & Hv & Hn & _).
  unfold seriesInfoOf in Hd. cbn [fst snd] in Hd.
  destruct (2 <=? length (SeriesData.volumes d))%nat eqn:E2; [|discriminate].
  apply Nat.leb_le in E2.
  destruct (sortBy compareVolumes (SeriesData.volumes d)) as [|v vs] eqn:Es;
    [discriminate|].
  injection Hd as <-.
  cbn [SeriesInfo.volumes SeriesInfo.seriesId SeriesInfo.totalVolumes
       SeriesInfo.representativeBook SeriesInfo.seriesName].
  rewrite <- Hv, <- Es. repeat split; auto.
  all: try (rewrite Es; reflexivity).
  rewrite sortVolumes_length. exact E2.
Qed.

Lemma groupsFrom_injective books s1 s2 :
  In s1 (groupsFrom toLowerCase books) -> In s2 (groupsFrom toLowerCase books) ->
  SeriesInfo.seriesId s1 = SeriesInfo.seriesId s2 -> s1 = s2.
Proof.
  intros H1 H2 E.
  destruct (groupsFrom_entry _ _ H1) as (d1 & Hin1 & Hd1).
  destruct (groupsFrom_entry _ _ H2) as (d2 & Hin2 & Hd2).
  rewrite <- E in Hin2, Hd2.
  pose proof (keys_distinct _ _ _ (collect_collected toLowerCase books)) as Hnd.
  assert (d1 = d2) as ->; [|congruence].
  revert Hnd Hin1 Hin2. generalize (collect toLowerCase books).
  induction l as [|[k d] l IH]; cbn [List.map fst In]; [tauto|].
  intros Hnd. inversion Hnd as [|? ? Hk Hl]; subst.
  intros [[= -> ->]|H1'] [[= ->]|H2']; auto.
  - exfalso. apply Hk. apply in_map_iff. exists (SeriesInfo.seriesId s1, d2). auto.
  - exfalso. subst. apply Hk. apply in_map_iff.
    exists (SeriesInfo.seriesId s1, d1). auto.
Qed.

(** A member of a series is a book of the list, and a candidate for the key
    of the series. *)
Lemma member_candidate books s v :
  In s (groupsFrom toLowerCase books) -> In v (SeriesInfo.volumes s) ->
  In (Volume.book v) books
  /\ exists c, candidate toLowerCase (Volume.book v) = Some c
               /\ Candidate.seriesId c = SeriesInfo.seriesId s.
Proof.
  intros Hs Hv. destruct (groupsFrom_In _ _ Hs) as (Hvol & _).
  rewrite Hvol in Hv. apply (Permutation_in _ (sortVolumes_perm _)) in Hv.
  destruct (bucket_In _ _ _ Hv) as (Hb & c & Hc & Hk & _). eauto.
Qed.

(** With unique identifiers, an identifier is a member of one series at
    most. *)
Lemma member_unique books s1 s2 a :
  uniqueIds books ->
  In s1 (groupsFrom toLowerCase books) -> In s2 (groupsFrom toLowerCase books) ->
  In a (members s1) -> In a (members s2) -> s1 = s2.
Proof.
  intros Hu H1 H2 Ha1 Ha2. unfold members in *.
  apply in_map_iff in Ha1, Ha2.
  destruct Ha1 as (v1 & <- & Hv1). destruct Ha2 as (v2 & Ea & Hv2).
  destruct (member_candidate _ _ _ H1 Hv1) as (Hb1 & c1 & Hc1 & Hk1).
  destruct (member_candidate _ _ _ H2 Hv2) as (Hb2 & c2 & Hc2 & Hk2).
  rewrite (Hu _ _ Hb2 Hb1 Ea) in Hc2.
  apply (groupsFrom_injective books); auto. congruence.
Qed.

End Series.

(** ** The index *)

Section Index.
Implicit Types (index : gmap jsstring jsstring) (s : SeriesInfo.t).

Lemma register_lookup index s a :
  register index s !! a
  = if bool_decide (a ∈ members s) then Some (SeriesInfo.seriesId s)
    else index !! a.
Proof.
  unfold register, members. generalize (SeriesInfo.seriesId s) as sid.
  intros sid. revert index.
  induction (SeriesInfo.volumes s) as [|v vs IH]; intros index; cbn [fold_left List.map].
  - rewrite bool_decide_eq_false_2 by (apply not_elem_of_nil). reflexivity.
  - rewrite IH. destruct (bool_decide (a ∈ List.map _ vs)) eqn:E.
    + apply bool_decide_eq_true in E.
      rewrite bool_decide_eq_true_2 by (apply elem_of_cons; right; exact E).
      reflexivity.
    + apply bool_decide_eq_false in E.
      destruct (decide (a = Book.asin (Volume.book v))) as [Ha|Ha].
      * rewrite bool_decide_eq_true_2 by (apply elem_of_cons; left; exact Ha).
        rewrite Ha. apply lookup_insert_eq.
      * rewrite bool_decide_eq_false_2 by (rewrite elem_of_cons; tauto).
        apply lookup_insert_ne. congruence.
Qed.

(** The index maps an identifier to the last series that has it. *)
Lemma indexFrom_lookup (groups : list SeriesInfo.t) a : forall index,
  fold_left register groups index !! a
  = match List.find (fun s => bool_decide (a ∈ members s)) (rev groups) with
    | Some s => Some (SeriesInfo.seriesId s)
    | None => index !! a
    end.
Proof.
  induction groups as [|s groups IH] using rev_ind; intros index.
  - reflexivity.
  - rewrite fold_left_app, rev_app_distr. cbn [fold_left rev app List.find].
    rewrite register_lookup. destruct (bool_decide (a ∈ members s)); [reflexivity|].
    apply IH.
Qed.

End Index.

Lemma indexFrom_consistent toLowerCase books :
  uniqueIds books ->
  indexConsistent (groupsFrom toLowerCase books)
    (indexFrom (groupsFrom toLowerCase books)).
Proof.
  intros Hu. set (G := groupsFrom toLowerCase books).
  assert (Hfind : forall a s,
    List.find (fun s => bool_decide (a ∈ members s)) (rev G) = Some s ->
    In s G /\ In a (members s)).
  { intros a s H. apply find_some in H. destruct H as [Hin Ha].
    apply bool_decide_eq_true in Ha. rewrite <- in_rev in Hin.
    split; [exact Hin|apply list_elem_of_In, Ha]. }
  assert (Hmem : forall a s, In s G -> In a (members s) ->
    indexFrom G !! a = Some (SeriesInfo.seriesId s)).
  { intros a s Hs Ha. unfold indexFrom. rewrite indexFrom_lookup.
    destruct (List.find _ (rev G)) as [s'|] eqn:E.
    - destruct (Hfind _ _ E) as [Hs' Ha'].
      rewrite (member_unique toLowerCase books s' s a); auto.
    - exfalso. assert (Hf := find_none _ _ E s).
      rewrite <- in_rev in Hf. specialize (Hf Hs). cbn beta in Hf.
      apply bool_decide_eq_false in Hf. apply Hf, list_elem_of_In, Ha. }
  split; [|split].
  - intros a sid H. unfold indexFrom in H. rewrite indexFrom_lookup in H.
    destruct (List.find _ (rev G)) as [s|] eqn:E; [|rewrite lookup_empty in H; discriminate].
    injection H as <-. destruct (Hfind _ _ E) as [Hs Ha].
    exists s. repeat split; auto.
    intros s' Hs' Ha'. apply (member_unique toLowerCase books s' s a); auto.
  - intros s a. apply Hmem.
  - intros a Hno. unfold indexFrom. rewrite indexFrom_lookup.
    destruct (List.find _ (rev G)) as [s|] eqn:E; [|apply lookup_empty].
    destruct (Hfind _ _ E) as [Hs Ha]. destruct (Hno s Hs Ha).
Qed.

(* ===================================================================== *)
(** * What the cache of a reachable manager holds                          *)
(* ===================================================================== *)

Section Reachable.
Variable toLowerCase : jsstring -> jsstring.
Variable ok : list Book.t -> Prop.
Local Abbreviation detect := (detectAndGroupSeries toLowerCase) (only parsing).

Lemma step_reachable calls : forall st,
  reachable toLowerCase ok st -> callsMeet ok calls ->
  reachable toLowerCase ok (fold_left (step toLowerCase) calls st).
Proof.
  induction calls as [|c calls IH]; intros st Hst Hc; cbn [fold_left]; [exact Hst|].
  inversion Hc as [|? ? Hok Hrest]; subst. apply IH; [|exact Hrest].
  destruct c as [books|]; cbn [step].
  - apply reach_detect; assumption.
  - apply reach_clear; assumption.
Qed.

Lemma after_reachable h calls :
  callsMeet ok calls -> reachable toLowerCase ok (after toLowerCase h calls).
Proof. apply step_reachable, reach_new. Qed.

(** A cache that is served was computed by an earlier call. *)
Lemma reachable_cache st :
  reachable toLowerCase ok st -> cacheServes st = true ->
  exists books0, ok books0
    /\ seriesList st (cached st) = groupsFrom toLowerCase books0
    /\ seriesIndex st (cached st) = indexFrom (groupsFrom toLowerCase books0).
Proof.
  induction 1 as [h|st books Hst IH Hok|st Hst IH]; intros Hs.
  - discriminate.
  - destruct (cacheServes st) eqn:E.
    + rewrite detect_hit in * by exact E. auto.
    + rewrite detect_miss in * by exact E. exists books.
      unfold seriesList, seriesIndex, cached.
      cbn [fst store this SeriesManager.seriesGroups
           SeriesManager.bookToSeriesMap Detected.seriesGroups
           Detected.bookToSeriesMap].
      rewrite arrayAt_tail, mapAt_tail. auto.
  - discriminate.
Qed.

(** The result of a call was computed from some book list that meets the
    contract: the argument itself when the cache is not served. *)
Lemma detect_contents st books :
  reachable toLowerCase ok st -> ok books ->
  exists books0, ok books0
    /\ (cacheServes st = false -> books0 = books)
    /\ seriesList (detect st books).1 (detect st books).2
       = groupsFrom toLowerCase books0
    /\ seriesIndex (detect st books).1 (detect st books).2
       = indexFrom (groupsFrom toLowerCase books0).
Proof.
  intros Hst Hok. destruct (cacheServes st) eqn:E.
  - rewrite detect_hit by exact E.
    destruct (reachable_cache st Hst E) as (books0 & H0 & Hg & Hi).
    exists books0. cbn [fst snd]. repeat split; auto. discriminate.
  - rewrite detect_miss by exact E. exists books.
    unfold seriesList, seriesIndex.
    cbn [fst snd store this Detected.seriesGroups Detected.bookToSeriesMap].
    rewrite arrayAt_tail, mapAt_tail. auto.
Qed.

End Reachable.

(* ===================================================================== *)
(** * normalizeString                                                      *)
(* ===================================================================== *)

Lemma replaceEach_fold rs : forall s,
  fold_left (fun s r => JS.replaceEach r.1 r.2 s) rs s = List.map (applyAll rs) s.
Proof.
  induction rs as [|r rs IH]; intros s; cbn [fold_left].
  - unfold applyAll. cbn [fold_left]. symmetry. apply List.map_id.
  - rewrite IH. unfold JS.replaceEach. rewrite List.map_map. reflexivity.
Qed.

Lemma normalizeString_chars s :
  normalizeString s
  = JS.trim (JS.collapseSpaces (List.map (applyAll replacements) s)).
Proof.
  unfold normalizeString. destruct s; [reflexivity|].
  rewrite replaceEach_fold. reflexivity.
Qed.

Lemma applyAll_fixed rs c :
  Forall (fun r : (Z -> bool) * (Z -> Z) => r.1 c = false) rs -> applyAll rs c = c.
Proof.
  induction 1 as [|r rs Hr _ IH]; [reflexivity|].
  unfold applyAll in *. cbn [fold_left]. rewrite Hr. exact IH.
Qed.

(** ASCII characters are clean, and a replacement produces ASCII. *)
Lemma ascii_clean c : 0 <= c < 128 -> clean c.
Proof.
  intros Hc. unfold clean, replacements.
  repeat (apply List.Forall_cons; [|]); [..|apply List.Forall_nil];
    cbn [fst]; unfold isFullWidthAlnum, isDash, isTilde, isChar;
    repeat match goal with
    | |- context [JS.chr ?k] =>
        let v := eval vm_compute in (JS.chr k) in change (JS.chr k) with v
    end; lia.
Qed.

Lemma replacements_ascii :
  Forall (fun r : (Z -> bool) * (Z -> Z) =>
            forall c, r.1 c = true -> 0 <= r.2 c < 128) replacements.
Proof.
  unfold replacements.
  repeat (apply List.Forall_cons; [intros c Hc; cbn [fst snd] in *|]);
    [..|apply List.Forall_nil].
  1:{ unfold isFullWidthAlnum in Hc. unfold fromCharCode.
      repeat match type of Hc with
        | context [JS.chr ?k] =>
            let v := eval vm_compute in (JS.chr k) in change (JS.chr k) with v in Hc
        end.
      rewrite Z.mod_small by lia. lia. }
  all: clear Hc; vm_compute; split; congruence.
Qed.

Lemma applyAll_clean_from rs2 : forall rs1 c,
  replacements = rs1 ++ rs2 ->
  Forall (fun r : (Z -> bool) * (Z -> Z) => r.1 c = false) rs1 ->
  clean (applyAll rs2 c).
Proof.
  induction rs2 as [|r rs2 IH]; intros rs1 c E H1.
  - rewrite app_nil_r in E. unfold clean. rewrite E. exact H1.
  - unfold applyAll. cbn [fold_left]. destruct (r.1 c) eqn:Hr.
    + assert (Hin : In r replacements).
      { rewrite E. apply in_or_app. right. left. reflexivity. }
      pose proof replacements_ascii as Ha. rewrite List.Forall_forall in Ha.
      pose proof (ascii_clean _ (Ha r Hin c Hr)) as Hc.
      fold (applyAll rs2 (r.2 c)). rewrite applyAll_fixed; [exact Hc|].
      unfold clean in Hc. rewrite E in Hc.
      apply List.Forall_app in Hc. destruct Hc as [_ Hc].
      inversion Hc; assumption.
    + apply (IH (rs1 ++ [r])).
      * rewrite <- app_assoc. exact E.
      * apply List.Forall_app. split; [exact H1|]. constructor; [exact Hr|constructor].
Qed.

Lemma applyAll_clean c : clean (applyAll replacements c).
Proof. apply (applyAll_clean_from replacements []); [reflexivity|constructor]. Qed.

Lemma applyAll_idempotent c :
  applyAll replacements (applyAll replacements c) = applyAll replacements c.
Proof. apply applyAll_fixed, applyAll_clean. Qed.

(** *** White space *)

Lemma collapseFrom_tidy s : forall b, tidy b (JS.collapseFrom b s).
Proof.
  induction s as [|c s IH]; intros b; cbn [JS.collapseFrom]; [exact I|].
  destruct (JS.isWhiteSpace c) eqn:Hc.
  - destruct b; [apply IH|]. cbn [tidy].
    change (JS.isWhiteSpace 32) with true. cbn iota. auto.
  - cbn [tidy]. rewrite Hc. apply IH.
Qed.

Lemma tidy_collapseFrom s : forall b, tidy b s -> JS.collapseFrom b s = s.
Proof.
  induction s as [|c s IH]; intros b; cbn [tidy JS.collapseFrom]; [reflexivity|].
  destruct (JS.isWhiteSpace c).
  - intros (-> & -> & H). rewrite (IH _ H). reflexivity.
  - intros H. rewrite (IH _ H). reflexivity.
Qed.

Lemma tidy_dropWhile s : forall b, tidy b s -> tidy false (JS.dropWhile JS.isWhiteSpace s).
Proof.
  induction s as [|c s IH]; intros b; cbn [tidy JS.dropWhile]; [auto|].
  destruct (JS.isWhiteSpace c) eqn:Hc.
  - intros (_ & _ & H). apply (IH _ H).
  - intros H. cbn [tidy]. rewrite Hc. exact H.
Qed.

Lemma tidy_prefix s1 s2 : forall b, tidy b (s1 ++ s2) -> tidy b s1.
Proof.
  induction s1 as [|c s1 IH]; intros b; cbn [app tidy]; [auto|].
  destruct (JS.isWhiteSpace c).
  - intros (H1 & H2 & H). eauto.
  - apply IH.
Qed.

Lemma dropWhile_suffix {A} (p : A -> bool) l :
  exists l1, l = l1 ++ JS.dropWhile p l.
Proof.
  induction l as [|x l [l1 IH]]; cbn [JS.dropWhile]; [exists []; reflexivity|].
  destruct (p x).
  - exists (x :: l1). cbn [app]. f_equal. exact IH.
  - exists []. reflexivity.
Qed.

Lemma dropWhile_idempotent {A} (p : A -> bool) l :
  JS.dropWhile p (JS.dropWhile p l) = JS.dropWhile p l.
Proof.
  induction l as [|x l IH]; cbn [JS.dropWhile]; [reflexivity|].
  destruct (p x) eqn:E; [exact IH|]. cbn [JS.dropWhile]. rewrite E. reflexivity.
Qed.

Lemma dropWhile_head {A} (p : A -> bool) l x r :
  JS.dropWhile p l = x :: r -> p x = false.
Proof.
  induction l as [|y l IH]; cbn [JS.dropWhile]; [discriminate|].
  destruct (p y) eqn:E; [exact IH|]. intros [= -> _]. exact E.
Qed.

Lemma trimEnd_prefix s : exists t, s = JS.trimEnd s ++ t.
Proof.
  unfold JS.trimEnd.
  destruct (dropWhile_suffix JS.isWhiteSpace (rev s)) as [l1 E].
  exists (rev l1). rewrite <- rev_app_distr, <- E, rev_involutive. reflexivity.
Qed.

Lemma trim_In s x : In x (JS.trim s) -> In x s.
Proof.
  unfold JS.trim. intros H.
  destruct (trimEnd_prefix (JS.trimStart s)) as [t E].
  assert (H' : In x (JS.trimStart s)) by (rewrite E; apply in_or_app; auto).
  unfold JS.trimStart in H'.
  destruct (dropWhile_suffix JS.isWhiteSpace s) as [l1 E1].
  rewrite E1. apply in_or_app. auto.
Qed.

Lemma collapseFrom_In s x : forall b, In x (JS.collapseFrom b s) -> x = 32 \/ In x s.
Proof.
  induction s as [|c s IH]; intros b; cbn [JS.collapseFrom]; [auto|].
  destruct (JS.isWhiteSpace c).
  - destruct b.
    + intros H. destruct (IH _ H); cbn [In]; auto.
    + intros [<-|H]; [auto|]. destruct (IH _ H); cbn [In]; auto.
  - intros [<-|H]; cbn [In]; [auto|]. destruct (IH _ H); auto.
Qed.

Lemma tidy_trim s : tidy false s -> tidy false (JS.trim s).
Proof.
  intros H. unfold JS.trim.
  apply (tidy_dropWhile _ _) in H. fold (JS.trimStart s) in H.
  destruct (trimEnd_prefix (JS.trimStart s)) as [t E].
  rewrite E in H. apply (tidy_prefix _ _ _ H).
Qed.

Lemma trim_idempotent s : JS.trim (JS.trim s) = JS.trim s.
Proof.
  unfold JS.trim. set (y := JS.trimStart s).
  assert (Hs : JS.trimStart (JS.trimEnd y) = JS.trimEnd y).
  { destruct (trimEnd_prefix y) as [t E].
    destruct (JS.trimEnd y) as [|x z] eqn:Ez; [reflexivity|].
    unfold JS.trimStart. cbn [JS.dropWhile].
    assert (Hx : JS.isWhiteSpace x = false).
    { subst y. unfold JS.trimStart in E. cbn [app] in E.
      exact (dropWhile_head _ _ _ _ E). }
    rewrite Hx. reflexivity. }
  rewrite Hs. unfold JS.trimEnd.
  rewrite rev_involutive, dropWhile_idempotent. reflexivity.
Qed.

(** C7.  [normalizeString] is idempotent: normalizing a normalized string
    changes nothing. *)
Theorem normalizeString_idempotent s :
  normalizeString (normalizeString s) = normalizeString s.
Proof.
  rewrite !normalizeString_chars.
  set (l := List.map (applyAll replacements) s).
  set (t := JS.trim (JS.collapseSpaces l)).
  assert (Hfix : List.map (applyAll replacements) t = t).
  { rewrite <- (List.map_id t) at 2. apply List.map_ext_in.
    intros x Hx. apply trim_In in Hx. apply collapseFrom_In in Hx.
    destruct Hx as [->|Hx].
    - apply applyAll_fixed, ascii_clean. lia.
    - unfold l in Hx. apply in_map_iff in Hx. destruct Hx as (c & <- & _).
      apply applyAll_idempotent. }
  rewrite Hfix.
  assert (Ht : tidy false t) by apply tidy_trim, collapseFrom_tidy.
  unfold JS.collapseSpaces at 1. rewrite (tidy_collapseFrom _ _ Ht).
  apply trim_idempotent.
Qed.


(* ===================================================================== *)
(** * Which series a book list gives                                       *)
(* ===================================================================== *)

Section Grouping.
Variable toLowerCase : jsstring -> jsstring.

(** What [candidate] returns, spelled out. *)
Lemma candidate_Some book c :
  candidate toLowerCase book = Some c ->
  truthy (Book.title book) = true /\ truthy (Book.authors book) = true
  /\ Candidate.seriesId c
     = generateSeriesId toLowerCase
         (Extracted.normalizedTitle (extractVolumeNumber (default [] (Book.title book))))
         (default [] (Book.authors book))
  /\ Candidate.seriesName c
     = Extracted.normalizedTitle (extractVolumeNumber (default [] (Book.title book)))
  /\ Candidate.authors c = default [] (Book.authors book)
  /\ Volume.book (Candidate.volume c) = book
  /\ Volume.volumeNumber (Candidate.volume c)
     = Extracted.volumeNumber (extractVolumeNumber (default [] (Book.title book)))
  /\ Volume.volumeNumber (Candidate.volume c) <> None.
Proof.
  unfold candidate.
  destruct (truthy (Book.title book)); [|discriminate].
  destruct (truthy (Book.authors book)); [|discriminate].
  cbn [andb]. cbv zeta.
  destruct (Extracted.volumeNumber _) as [n|] eqn:E; [|discriminate].
  intros [= <-].
  cbn [Candidate.seriesId Candidate.seriesName Candidate.authors
       Candidate.volume Volume.book Volume.volumeNumber].
  repeat split; congruence.
Qed.

Lemma seriesInfoOf_id e s : seriesInfoOf e = Some s -> SeriesInfo.seriesId s = e.1.
Proof.
  unfold seriesInfoOf. destruct (2 <=? _)%nat; [|discriminate].
  destruct (sortBy _ _); [discriminate|]. intros [= <-]. reflexivity.
Qed.

Lemma seriesInfoOf_ids (m : seriesMap) id :
  In id (List.map SeriesInfo.seriesId (omap seriesInfoOf m)) ->
  In id (List.map fst m).
Proof.
  rewrite !in_map_iff. intros (s & <- & Hs).
  apply list_elem_of_In, list_elem_of_omap in Hs.
  destruct Hs as (e & He & Hs). apply list_elem_of_In in He.
  exists e. split; [symmetry; apply seriesInfoOf_id, Hs|exact He].
Qed.

Lemma seriesInfoOf_NoDup (m : seriesMap) :
  List.NoDup (List.map fst m) ->
  List.NoDup (List.map SeriesInfo.seriesId (omap seriesInfoOf m)).
Proof.
  induction m as [|e m IH]; cbn [List.map omap list_omap]; [constructor|].
  intros Hnd. inversion Hnd as [|? ? He Hm]; subst.
  destruct (seriesInfoOf e) as [s|] eqn:Es; [|apply IH, Hm].
  cbn [List.map]. constructor; [|apply IH, Hm].
  rewrite (seriesInfoOf_id _ _ Es). intros H. apply He, seriesInfoOf_ids, H.
Qed.

Lemma groupsFrom_NoDup books :
  List.NoDup (List.map SeriesInfo.seriesId (groupsFrom toLowerCase books)).
Proof.
  apply seriesInfoOf_NoDup.
  apply (keys_distinct _ _ _ (collect_collected toLowerCase books)).
Qed.

(** A key has a series exactly when it has two candidates or more. *)
Lemma groupsFrom_key books k :
  (exists s, In s (groupsFrom toLowerCase books) /\ SeriesInfo.seriesId s = k)
  <-> (2 <= length (bucket toLowerCase k books))%nat.
Proof.
  split.
  - intros (s & Hs & <-).
    destruct (groupsFrom_In toLowerCase books s Hs) as (Hv & H2 & _).
    rewrite Hv, sortVolumes_length in H2. exact H2.
  - intros H2.
    destruct (collect_collected toLowerCase books) as [_ Hent Hkey].
    assert (Hk : In k (List.map fst (collect toLowerCase books))).
    { apply Hkey. destruct (bucket toLowerCase k books); [cbn in H2; lia|discriminate]. }
    apply in_map_iff in Hk. destruct Hk as ([k' d] & Hkk & Hin).
    cbn [fst] in Hkk. subst k'.
    destruct (Hent _ _ Hin) as (_ & Hv & _).
    destruct (seriesInfoOf (k, d)) as [s|] eqn:Es.
    + exists s. split; [|apply (seriesInfoOf_id _ _ Es)].
      unfold groupsFrom. apply list_elem_of_In, list_elem_of_omap.
      exists (k, d). split; [apply list_elem_of_In, Hin|exact Es].
    + exfalso. unfold seriesInfoOf in Es. cbn [fst snd] in Es.
      rewrite Hv in Es. apply Nat.leb_le in H2. rewrite H2 in Es.
      pose proof (sortVolumes_length (bucket toLowerCase k books)) as Hl.
      destruct (sortBy compareVolumes (bucket toLowerCase k books));
        [cbn in Hl; apply Nat.leb_le in H2; lia|discriminate].
Qed.

End Grouping.

Lemma find_by_id (l : list SeriesInfo.t) s :
  List.NoDup (List.map SeriesInfo.seriesId l) -> In s l ->
  List.find (fun s' => bool_decide (SeriesInfo.seriesId s' = SeriesInfo.seriesId s)) l
  = Some s.
Proof.
  induction l as [|x l IH]; cbn [List.map In List.find]; [tauto|].
  intros Hnd Hin. inversion Hnd as [|? ? Hx Hl]; subst.
  destruct Hin as [->|Hin].
  - rewrite bool_decide_eq_true_2 by reflexivity. reflexivity.
  - rewrite bool_decide_eq_false_2; [apply IH; assumption|].
    intros E. apply Hx. rewrite E. apply in_map, Hin.
Qed.

(* ===================================================================== *)
(** * Examples of the specification                                        *)
(* ===================================================================== *)

Lemma shelf_series : seriesList shelfRun.1 shelfRun.2 = [dragon].
Proof. vm_compute. reflexivity. Qed.

Lemma uniqueIds_NoDup books :
  List.NoDup (List.map Book.asin books) -> uniqueIds books.
Proof.
  induction books as [|b books IH]; cbn [List.map]; intros Hnd b1 b2 H1 H2 E.
  - destruct H1.
  - inversion Hnd as [|? ? Hb Hr]; subst.
    destruct H1 as [<-|H1], H2 as [<-|H2]; auto.
    + exfalso. apply Hb. rewrite E. apply in_map. exact H2.
    + exfalso. apply Hb. rewrite <- E. apply in_map. exact H1.
    + apply IH; assumption.
Defined.

Lemma shelf_unique : uniqueIds shelf.
Proof.
  apply uniqueIds_NoDup. apply NoDup_ListNoDup.
  apply (bool_decide_unpack _). vm_compute. exact I.
Defined.

Lemma lowerPlain_spec : lowerCaseSpec lowerPlain.
Proof. intros s _. reflexivity. Defined.

(* ===================================================================== *)
(** * The properties of the specification                                  *)
(* ===================================================================== *)

Lemma callsMeet_any calls : callsMeet anyBooks calls.
Proof.
  apply List.Forall_forall. intros [books|] _; exact I.
Qed.

(** C1.  For every book list, every series that [detectAndGroupSeries]
    returns has [totalVolumes] equal to the length of [volumes], and at
    least 2.  The manager is in the state that any sequence of earlier calls
    has left: the result may come from the cache as well as from a
    computation. *)
Theorem series_total_volumes toLowerCase h calls books s :
  In s (seriesList
          (detectAndGroupSeries toLowerCase (after toLowerCase h calls) books).1
          (detectAndGroupSeries toLowerCase (after toLowerCase h calls) books).2) ->
  SeriesInfo.totalVolumes s = length (SeriesInfo.volumes s)
  /\ (2 <= SeriesInfo.totalVolumes s)%nat.
Proof.
  intros Hs.
  pose proof (after_reachable toLowerCase anyBooks h calls (callsMeet_any calls))
    as Hst.
  destruct (detect_contents toLowerCase anyBooks _ books Hst I)
    as (books0 & _ & _ & Hg & _).
  rewrite Hg in Hs.
  destruct (groupsFrom_In toLowerCase books0 s Hs) as (_ & H2 & Ht & _).
  rewrite Ht. auto.
Qed.

Lemma series_total_volumes_witness :
  SeriesInfo.totalVolumes dragon = length (SeriesInfo.volumes dragon)
  /\ (2 <= SeriesInfo.totalVolumes dragon)%nat.
Proof.
  apply (series_total_volumes lowerPlain [] [] shelf dragon).
  change (In dragon (seriesList shelfRun.1 shelfRun.2)).
  rewrite shelf_series. left. reflexivity.
Defined.

(** C2, as stated, fails: in [twins] two records share the identifier
    "B001" and belong to two series; both series are returned, "B001" is a
    member of both, and the index maps it to the second. *)
Lemma shared_identifier_in_two_series :
  ~ indexConsistent (seriesList twinsRun.1 twinsRun.2)
      (seriesIndex twinsRun.1 twinsRun.2).
Proof.
  intros [Hkey _].
  assert (Hl : seriesIndex twinsRun.1 twinsRun.2 !! JS.lit "B001"
               = Some (JS.lit "別の物語")) by (vm_compute; reflexivity).
  destruct (Hkey _ _ Hl) as (s & _ & _ & Hid & Hone).
  assert (Hd : exists s1, In s1 (seriesList twinsRun.1 twinsRun.2)
                          /\ In (JS.lit "B001") (members s1)
                          /\ SeriesInfo.seriesId s1 = JS.lit "ドラゴン物語").
  { eexists. split; [vm_compute; left; reflexivity|].
    split; [vm_compute; left; reflexivity|vm_compute; reflexivity]. }
  destruct Hd as (s1 & Hin1 & Hm1 & Hid1).
  rewrite (Hone s1 Hin1 Hm1) in Hid1. rewrite Hid1 in Hid.
  vm_compute in Hid. discriminate Hid.
Qed.

(** C2, as amended.  For every list of books with unique identifiers (two
    records with the same identifier are the same record), passed to a
    manager that was given such lists before, the index that
    [detectAndGroupSeries] returns agrees with the series list it returns:
    every key of the index is a member of exactly one series, whose
    [seriesId] is the value stored for the key; every member of a series is
    a key; an identifier that is in no series (the series all have two
    volumes or more, by C1) is not a key. *)
Theorem index_matches_series toLowerCase h calls books :
  callsMeet uniqueIds calls -> uniqueIds books ->
  indexConsistent
    (seriesList
       (detectAndGroupSeries toLowerCase (after toLowerCase h calls) books).1
       (detectAndGroupSeries toLowerCase (after toLowerCase h calls) books).2)
    (seriesIndex
       (detectAndGroupSeries toLowerCase (after toLowerCase h calls) books).1
       (detectAndGroupSeries toLowerCase (after toLowerCase h calls) books).2).
Proof.
  intros Hc Hu.
  pose proof (after_reachable toLowerCase uniqueIds h calls Hc) as Hst.
  destruct (detect_contents toLowerCase uniqueIds _ books Hst Hu)
    as (books0 & Hu0 & _ & -> & ->).
  apply indexFrom_consistent, Hu0.
Qed.

Lemma index_matches_series_witness :
  indexConsistent (seriesList shelfRun.1 shelfRun.2)
    (seriesIndex shelfRun.1 shelfRun.2).
Proof.
  apply (index_matches_series lowerPlain [] [] shelf).
  - apply List.Forall_nil.
  - apply shelf_unique.
Defined.

(** C3.  In every series that [detectAndGroupSeries] returns, [volumes] is
    in non-decreasing order of [volumeNumber], a missing number after every
    number ([volumeLe]: after an element without number there are only
    elements without number); the volumes that carry one and the same number keep
    the order of the book list that the result was computed from (the
    argument, unless the cache is served); and [representativeBook] is the
    book of [volumes[0]].  The manager is in the state that any sequence of
    earlier calls has left. *)
Theorem volumes_sorted_stable toLowerCase h calls books :
  exists books0,
    (cacheServes (after toLowerCase h calls) = false -> books0 = books)
    /\ forall s,
         In s (seriesList
                 (detectAndGroupSeries toLowerCase (after toLowerCase h calls) books).1
                 (detectAndGroupSeries toLowerCase (after toLowerCase h calls) books).2) ->
         StronglySorted volumeLe (SeriesInfo.volumes s)
         /\ (forall l1 v l2, SeriesInfo.volumes s = l1 ++ v :: l2 ->
               Volume.volumeNumber v = None ->
               Forall (fun w => Volume.volumeNumber w = None) l2)
         /\ Permutation (SeriesInfo.volumes s)
              (bucket toLowerCase (SeriesInfo.seriesId s) books0)
         /\ (forall n, withNumber n (SeriesInfo.volumes s)
                       = withNumber n (bucket toLowerCase (SeriesInfo.seriesId s) books0))
         /\ Some (SeriesInfo.representativeBook s)
            = Volume.book <$> head (SeriesInfo.volumes s).
Proof.
  pose proof (after_reachable toLowerCase anyBooks h calls (callsMeet_any calls))
    as Hst.
  destruct (detect_contents toLowerCase anyBooks _ books Hst I)
    as (books0 & _ & Hb & Hg & _).
  exists books0. split; [exact Hb|]. intros s Hs. rewrite Hg in Hs.
  destruct (groupsFrom_In toLowerCase books0 s Hs) as (Hv & _ & _ & Hr & _).
  pose proof (bucket_numbered toLowerCase (SeriesInfo.seriesId s) books0) as Hn.
  rewrite Hv. repeat split.
  - apply sortVolumes_sorted, Hn.
  - apply sorted_absent_last, sortVolumes_sorted, Hn.
  - apply sortVolumes_perm.
  - intros n. apply sortVolumes_stable, Hn.
  - rewrite <- Hv. exact Hr.
Qed.

Lemma volumes_sorted_stable_witness :
  StronglySorted volumeLe (SeriesInfo.volumes dragon)
  /\ withNumber (Some (JS.Fin 2)) (SeriesInfo.volumes dragon)
     = withNumber (Some (JS.Fin 2))
         (bucket lowerPlain (SeriesInfo.seriesId dragon) shelf)
  /\ Some (SeriesInfo.representativeBook dragon)
     = Volume.book <$> head (SeriesInfo.volumes dragon).
Proof.
  destruct (volumes_sorted_stable lowerPlain [] [] shelf) as (books0 & Hb & H).
  rewrite <- (Hb eq_refl).
  destruct (H dragon) as (Hs & _ & _ & Hn & Hr).
  - change (In dragon (seriesList shelfRun.1 shelfRun.2)).
    rewrite shelf_series. left. reflexivity.
  - exact (conj Hs (conj (Hn _) Hr)).
Defined.

(** C4, as amended.  A second call of [detectAndGroupSeries] without
    [clearCache] in between returns the same two objects and leaves the heap
    as it is when the first call returned a series list that is not empty;
    when that list is empty the second call computes again, from its own
    argument, into two new objects.  After [clearCache] the next call
    computes from its argument into two new objects. *)
Theorem detect_memoized toLowerCase st books1 books2 :
  let once := detectAndGroupSeries toLowerCase st books1 in
  let again := detectAndGroupSeries toLowerCase once.1 books2 in
  let fresh := detectAndGroupSeries toLowerCase (clearCache once.1) books2 in
  match seriesList once.1 once.2 with
  | _ :: _ => again = once
  | [] =>
      Detected.seriesGroups again.2 = length (store once.1)
      /\ Detected.bookToSeriesMap again.2 = S (length (store once.1))
      /\ seriesList again.1 again.2 = groupsFrom toLowerCase books2
      /\ seriesIndex again.1 again.2
         = indexFrom (groupsFrom toLowerCase books2)
  end
  /\ (Detected.seriesGroups once.2 < length (store once.1))%nat
  /\ (length (store once.1) < Detected.seriesGroups fresh.2)%nat
  /\ (length (store once.1) < Detected.bookToSeriesMap fresh.2)%nat
  /\ seriesList fresh.1 fresh.2 = groupsFrom toLowerCase books2
  /\ seriesIndex fresh.1 fresh.2 = indexFrom (groupsFrom toLowerCase books2).
Proof.
  intros once again fresh.
  pose proof (cacheServes_after toLowerCase st books1) as Hserve.
  destruct (detect_cached toLowerCase st books1) as [Hc Hv].
  fold once in Hserve, Hc, Hv.
  split; [|split].
  - destruct (seriesList once.1 once.2) as [|s0 l] eqn:El.
    + rewrite bool_decide_eq_true_2 in Hserve by reflexivity. cbn [negb] in Hserve.
      unfold again. rewrite detect_miss by exact Hserve.
      unfold seriesList, seriesIndex.
      cbn [fst snd store this Detected.seriesGroups Detected.bookToSeriesMap].
      rewrite arrayAt_tail, mapAt_tail. auto.
    + rewrite bool_decide_eq_false_2 in Hserve by discriminate. cbn [negb] in Hserve.
      unfold again. rewrite detect_hit by exact Hserve.
      rewrite Hc. destruct once; reflexivity.
  - unfold once. destruct (cacheServes st) eqn:E.
    + rewrite detect_hit by exact E. cbn [fst snd cached Detected.seriesGroups].
      unfold cacheServes in E. apply andb_true_iff in E. destruct E as [_ E].
      apply Nat.ltb_lt in E. unfold arrayAt in E.
      destruct (store st !! SeriesManager.seriesGroups (this st)) eqn:El;
        [|cbn in E; lia].
      apply lookup_lt_Some in El. exact El.
    + rewrite detect_miss by exact E.
      cbn [fst snd store Detected.seriesGroups]. rewrite length_app. cbn. lia.
  - unfold fresh. rewrite detect_miss by apply cacheServes_reset.
    unfold seriesList, seriesIndex.
    cbn [fst snd store this Detected.seriesGroups Detected.bookToSeriesMap].
    rewrite arrayAt_tail, mapAt_tail.
    unfold clearCache, reset, alloc. cbn [store].
    rewrite !length_app. cbn [length]. repeat split; lia.
Qed.

(** C4, as stated, fails: a first call that finds no series leaves a cache
    that is not served; the second call computes again and returns other
    objects, here with another content. *)
Lemma detect_again_recomputes :
  loneThenShelf.2 <> loneRun.2
  /\ seriesList loneRun.1 loneRun.2 = []
  /\ seriesList loneThenShelf.1 loneThenShelf.2 = [dragon].
Proof.
  vm_compute. split; [discriminate|split; reflexivity].
Qed.

(** A read status of plain characters counts as read when it is "read" in
    any mix of upper and lower case. *)
Lemma isRead_plain toLowerCase book s :
  lowerCaseSpec toLowerCase -> Book.readStatus book = Some s ->
  forallb isPlain s = true ->
  isRead toLowerCase book
  = bool_decide (List.map JS.lowerAscii s = JS.lit "read").
Proof.
  intros Hl Hb Hs. unfold isRead. rewrite Hb. destruct s as [|c r].
  - symmetry. apply bool_decide_eq_false_2. vm_compute. discriminate.
  - rewrite (Hl _ Hs). reflexivity.
Qed.

(** C9.  For every argument, [getSeriesProgress] returns the number of
    volumes as [total], the number of volumes whose book has a read status
    that equals "read" when the case of its letters is ignored as [read], and
    their difference as [unread]; for a missing argument and for an argument
    without [volumes] it returns zeros.  [toLowerCase] is the library's: the
    read statuses are strings of the characters on which [lowerCaseSpec] says
    what it does. *)
Theorem getSeriesProgress_counts toLowerCase series :
  lowerCaseSpec toLowerCase ->
  (forall volumes v s,
     series = Object (Some volumes) -> In v volumes ->
     Book.readStatus (Volume.book v) = Some s -> forallb isPlain s = true) ->
  getSeriesProgress toLowerCase series
  = match series with
    | Object (Some volumes) =>
        let total := Z.of_nat (length volumes) in
        let read :=
          Z.of_nat
            (length
               (List.filter
                  (fun v =>
                     match Book.readStatus (Volume.book v) with
                     | Some s =>
                         bool_decide (List.map JS.lowerAscii s = JS.lit "read")
                     | None => false
                     end)
                  volumes)) in
        {| SeriesProgress.total := total; SeriesProgress.read := read;
           SeriesProgress.unread := total - read |}
    | _ =>
        {| SeriesProgress.total := 0; SeriesProgress.read := 0;
           SeriesProgress.unread := 0 |}
    end.
Proof.
  intros Hl Hp. destruct series as [|[volumes|]]; try reflexivity.
  unfold getSeriesProgress. cbv zeta.
  assert (H : forall vs n,
    fold_left (fun read v => if isRead toLowerCase (Volume.book v)
                             then read + 1 else read) vs n
    = n + Z.of_nat (length (List.filter
                              (fun v => isRead toLowerCase (Volume.book v)) vs))).
  { induction vs as [|v vs IH]; intros n; cbn [fold_left List.filter length].
    - lia.
    - rewrite IH. destruct (isRead toLowerCase (Volume.book v)); cbn [length]; lia. }
  rewrite H.
  assert (Hf : List.filter (fun v => isRead toLowerCase (Volume.book v)) volumes
               = List.filter
                   (fun v =>
                      match Book.readStatus (Volume.book v) with
                      | Some s =>
                          bool_decide (List.map JS.lowerAscii s = JS.lit "read")
                      | None => false
                      end)
                   volumes).
  { apply List.filter_ext_in. intros v Hv.
    destruct (Book.readStatus (Volume.book v)) as [s|] eqn:Es.
    - apply (isRead_plain toLowerCase _ s Hl Es), (Hp volumes v s eq_refl Hv Es).
    - unfold isRead. rewrite Es. reflexivity. }
  rewrite Hf. reflexivity.
Qed.

Lemma getSeriesProgress_counts_witness :
  getSeriesProgress lowerPlain (Object (Some statuses))
  = {| SeriesProgress.total := 4; SeriesProgress.read := 2;
       SeriesProgress.unread := 2 |}.
Proof.
  rewrite (getSeriesProgress_counts lowerPlain (Object (Some statuses))
             lowerPlain_spec).
  - vm_compute. reflexivity.
  - intros volumes v s [= <-] Hv Hs.
    destruct Hv as [<-|[<-|[<-|[<-|[]]]]]; vm_compute in Hs;
      first [discriminate Hs | injection Hs as <-; vm_compute; reflexivity].
Defined.

(** ** The examples *)

(** C5.  The title "大長編タイトル8 副題 (レーベル)" yields volume number 8
    and series name "大長編タイトル"; neither prefix pattern matches, the
    first ten volume patterns do not match, and the eleventh (a number glued
    to the title, then a subtitle and a label in parentheses) does. *)
Theorem extract_glued_number :
  let title := JS.lit "大長編タイトル8 副題 (レーベル)" in
  extractVolumeNumber title
  = {| Extracted.volumeNumber := Some (JS.Fin 8);
       Extracted.normalizedTitle := JS.lit "大長編タイトル" |}
  /\ exec prefixVolumePattern (normalizeString title) = None
  /\ exec prefixRangePattern (normalizeString title) = None
  /\ Forall (fun p => exec p (normalizeString title) = None) (firstn 10 patterns)
  /\ (volumeOf <$> exec (nth 10 patterns Empty) (normalizeString title))
     = Some (extractVolumeNumber title).
Proof.
  cbv zeta. split; [vm_compute; reflexivity|].
  split; [vm_compute; reflexivity|]. split; [vm_compute; reflexivity|].
  split; [|vm_compute; reflexivity].
  unfold patterns. cbn [firstn].
  repeat (apply List.Forall_cons; [vm_compute; reflexivity|]).
  apply List.Forall_nil.
Qed.

(** On plain strings [normalizeForId] is settled by the case conversion of
    ASCII. *)
Lemma normalizeForId_plain toLowerCase s :
  lowerCaseSpec toLowerCase -> forallb isPlain (normalizeString s) = true ->
  normalizeForId toLowerCase s = normalizeForId lowerPlain s.
Proof.
  intros Hl Hs. unfold normalizeForId, lowerPlain. destruct s; [reflexivity|].
  cbv zeta. f_equal. f_equal. exact (Hl _ Hs).
Qed.

(** C8.  [normalizeForId("Title (1)")] and [normalizeForId("title1")] are
    the same string, "title1". *)
Theorem normalizeForId_title toLowerCase :
  lowerCaseSpec toLowerCase ->
  normalizeForId toLowerCase (JS.lit "Title (1)")
  = normalizeForId toLowerCase (JS.lit "title1")
  /\ normalizeForId toLowerCase (JS.lit "Title (1)") = JS.lit "title1".
Proof.
  intros Hl.
  rewrite (normalizeForId_plain toLowerCase (JS.lit "Title (1)") Hl)
    by (vm_compute; reflexivity).
  rewrite (normalizeForId_plain toLowerCase (JS.lit "title1") Hl)
    by (vm_compute; reflexivity).
  vm_compute. split; reflexivity.
Qed.

Lemma normalizeForId_title_witness :
  normalizeForId lowerPlain (JS.lit "Title (1)")
  = normalizeForId lowerPlain (JS.lit "title1")
  /\ normalizeForId lowerPlain (JS.lit "Title (1)") = JS.lit "title1".
Proof. apply (normalizeForId_title lowerPlain lowerPlain_spec). Defined.

(** What the first loop takes from a book whose title yields a number. *)
Lemma candidate_titled toLowerCase book title n name :
  Book.title book = Some title -> truthy (Some title) = true ->
  truthy (Book.authors book) = true ->
  extractVolumeNumber title
  = {| Extracted.volumeNumber := Some n; Extracted.normalizedTitle := name |} ->
  candidate toLowerCase book
  = Some {| Candidate.seriesId := normalizeForId toLowerCase name;
            Candidate.seriesName := name;
            Candidate.authors := default [] (Book.authors book);
            Candidate.volume := {| Volume.book := book;
                                   Volume.volumeNumber := Some n |} |}.
Proof.
  intros Ht Htt Ha Hex. unfold candidate. rewrite Ht, Htt, Ha.
  cbn [andb default from_option]. change (id title) with title.
  rewrite Hex. reflexivity.
Qed.

(** C6.  Two books titled "シリーズ名 : 27 サブタイトル" and
    "シリーズ名(28)サブタイトル2", with authors, are put into one series,
    with the volume numbers 27 and 28: both titles yield the identifier
    "シリズ名" (the long vowel mark becomes a hyphen, which the identifier
    drops). *)
Theorem colon_and_paren_titles_group toLowerCase st b1 b2 :
  lowerCaseSpec toLowerCase -> cacheServes st = false ->
  Book.title b1 = Some (JS.lit "シリーズ名 : 27 サブタイトル") ->
  Book.title b2 = Some (JS.lit "シリーズ名(28)サブタイトル2") ->
  truthy (Book.authors b1) = true -> truthy (Book.authors b2) = true ->
  extractVolumeNumber (JS.lit "シリーズ名 : 27 サブタイトル")
  = {| Extracted.volumeNumber := Some (JS.Fin 27);
       Extracted.normalizedTitle := JS.lit "シリ-ズ名" |}
  /\ extractVolumeNumber (JS.lit "シリーズ名(28)サブタイトル2")
     = {| Extracted.volumeNumber := Some (JS.Fin 28);
          Extracted.normalizedTitle := JS.lit "シリ-ズ名" |}
  /\ generateSeriesId toLowerCase (JS.lit "シリ-ズ名") (default [] (Book.authors b1))
     = JS.lit "シリズ名"
  /\ generateSeriesId toLowerCase (JS.lit "シリ-ズ名") (default [] (Book.authors b2))
     = JS.lit "シリズ名"
  /\ seriesList (detectAndGroupSeries toLowerCase st [b1; b2]).1
                (detectAndGroupSeries toLowerCase st [b1; b2]).2
     = [ {| SeriesInfo.seriesId := JS.lit "シリズ名";
            SeriesInfo.seriesName := JS.lit "シリ-ズ名";
            SeriesInfo.authors := default [] (Book.authors b1);
            SeriesInfo.volumes :=
              [ {| Volume.book := b1; Volume.volumeNumber := Some (JS.Fin 27) |};
                {| Volume.book := b2; Volume.volumeNumber := Some (JS.Fin 28) |} ];
            SeriesInfo.representativeBook := b1;
            SeriesInfo.totalVolumes := 2 |} ].
Proof.
  intros Hl Hst T1 T2 A1 A2.
  assert (Hid : normalizeForId toLowerCase (JS.lit "シリ-ズ名") = JS.lit "シリズ名").
  { rewrite (normalizeForId_plain toLowerCase (JS.lit "シリ-ズ名") Hl)
      by (vm_compute; reflexivity).
    vm_compute. reflexivity. }
  split; [vm_compute; reflexivity|]. split; [vm_compute; reflexivity|].
  split; [exact Hid|]. split; [exact Hid|].
  rewrite detect_miss by exact Hst.
  unfold seriesList.
  cbn [fst snd store Detected.seriesGroups]. rewrite arrayAt_tail.
  unfold groupsFrom, collect. cbn [fold_left]. rewrite !addBook_candidate.
  rewrite (candidate_titled toLowerCase b1 _ (JS.Fin 27) (JS.lit "シリ-ズ名") T1);
    [|vm_compute; reflexivity|exact A1|vm_compute; reflexivity].
  rewrite (candidate_titled toLowerCase b2 _ (JS.Fin 28) (JS.lit "シリ-ズ名") T2);
    [|vm_compute; reflexivity|exact A2|vm_compute; reflexivity].
  rewrite Hid. vm_compute. reflexivity.
Qed.

Lemma colon_and_paren_titles_group_witness :
  seriesList
    (detectAndGroupSeries lowerPlain (constructor []) [colon27; paren28]).1
    (detectAndGroupSeries lowerPlain (constructor []) [colon27; paren28]).2
  = [ {| SeriesInfo.seriesId := JS.lit "シリズ名";
         SeriesInfo.seriesName := JS.lit "シリ-ズ名";
         SeriesInfo.authors := default [] (Book.authors colon27);
         SeriesInfo.volumes :=
           [ {| Volume.book := colon27; Volume.volumeNumber := Some (JS.Fin 27) |};
             {| Volume.book := paren28; Volume.volumeNumber := Some (JS.Fin 28) |} ];
         SeriesInfo.representativeBook := colon27;
         SeriesInfo.totalVolumes := 2 |} ].
Proof.
  apply (colon_and_paren_titles_group lowerPlain (constructor []) colon27 paren28
           lowerPlain_spec); vm_compute; reflexivity.
Defined.

(** C10, as stated, fails: in [mixed] the identifier "B101" belongs to a
    book of the series with the empty identifier and to a book of a second
    series.  The series with [seriesId] [""] is returned and "B101" is one of
    its members, but the index maps "B101" to the second series, and
    [getSeriesByBookAsin] returns that series, not [null]. *)
Lemma empty_id_member_found :
  exists s other,
    In s (seriesList mixedRun.1 mixedRun.2)
    /\ SeriesInfo.seriesId s = []
    /\ In (JS.lit "B101") (members s)
    /\ seriesIndex mixedRun.1 mixedRun.2 !! JS.lit "B101"
       = Some (JS.lit "別の物語")
    /\ getSeriesByBookAsin mixedRun.1 (JS.lit "B101") = Some other
    /\ SeriesInfo.seriesId other = JS.lit "別の物語".
Proof.
  eexists. eexists.
  split; [vm_compute; left; reflexivity|].
  split; [vm_compute; reflexivity|].
  split; [vm_compute; left; reflexivity|].
  split; [vm_compute; reflexivity|].
  split; [vm_compute; reflexivity|].
  vm_compute. reflexivity.
Qed.

(** C10, as amended.  For every list of books with unique identifiers,
    passed to a manager that was given such lists before: when two or more
    books are candidates whose series name normalizes to the empty string
    (the key [""]), a series with [seriesId] [""] is returned, made of these
    books, and [getSeriesById("")] finds it; and for every returned series
    whose name normalizes to [""], the [seriesId] is [""], the index maps the
    identifier of every member to [""], and [getSeriesByBookAsin] returns
    [null] for it.  The list is the argument, unless the cache is served. *)
Theorem empty_series_id_lookup toLowerCase h calls books :
  callsMeet uniqueIds calls -> uniqueIds books ->
  let st := after toLowerCase h calls in
  let st' := (detectAndGroupSeries toLowerCase st books).1 in
  let r := (detectAndGroupSeries toLowerCase st books).2 in
  exists books0,
    (cacheServes st = false -> books0 = books)
    /\ ((2 <= length (bucket toLowerCase [] books0))%nat ->
        exists s,
          In s (seriesList st' r)
          /\ SeriesInfo.seriesId s = []
          /\ SeriesInfo.volumes s
             = sortBy compareVolumes (bucket toLowerCase [] books0)
          /\ getSeriesById st' [] = Some s)
    /\ (forall s,
          In s (seriesList st' r) ->
          normalizeForId toLowerCase (SeriesInfo.seriesName s) = [] ->
          SeriesInfo.seriesId s = []
          /\ forall a, In a (members s) ->
               seriesIndex st' r !! a = Some []
               /\ getSeriesByBookAsin st' a = None).
Proof.
  intros Hc Hu st st' r.
  pose proof (after_reachable toLowerCase uniqueIds h calls Hc) as Hst.
  destruct (detect_contents toLowerCase uniqueIds _ books Hst Hu)
    as (books0 & Hu0 & Hb & Hg & Hi).
  destruct (detect_cached toLowerCase st books) as [Hcached _].
  change (seriesList st' r = groupsFrom toLowerCase books0) in Hg.
  change (seriesIndex st' r = indexFrom (groupsFrom toLowerCase books0)) in Hi.
  change (cached st' = r) in Hcached.
  assert (Hbyid : forall id,
    getSeriesById st' id
    = List.find (fun s => bool_decide (SeriesInfo.seriesId s = id))
        (groupsFrom toLowerCase books0)).
  { intros id. rewrite <- Hg. unfold getSeriesById, seriesList.
    rewrite <- Hcached. reflexivity. }
  assert (Hbyasin : forall a,
    getSeriesByBookAsin st' a
    = match indexFrom (groupsFrom toLowerCase books0) !! a with
      | None | Some [] => None
      | Some seriesId => getSeriesById st' seriesId
      end).
  { intros a. rewrite <- Hi. unfold getSeriesByBookAsin, seriesIndex.
    rewrite <- Hcached. reflexivity. }
  exists books0. split; [exact Hb|]. rewrite Hg, Hi. split.
  - intros H2.
    destruct (proj2 (groupsFrom_key toLowerCase books0 []) H2) as (s & Hs & Hid).
    exists s. split; [exact Hs|]. split; [exact Hid|]. split.
    + destruct (groupsFrom_In toLowerCase books0 s Hs) as (Hv & _).
      rewrite Hv, Hid. reflexivity.
    + rewrite Hbyid, <- Hid.
      apply find_by_id; [apply groupsFrom_NoDup|exact Hs].
  - intros s Hs Hn.
    destruct (groupsFrom_In toLowerCase books0 s Hs) as (_ & _ & _ & _ & Hname).
    rewrite Hn in Hname. symmetry in Hname. split; [exact Hname|].
    intros a Ha.
    destruct (indexFrom_consistent toLowerCase books0 Hu0) as (_ & Hmem & _).
    pose proof (Hmem s a Hs Ha) as Hl. rewrite Hname in Hl.
    split; [exact Hl|]. rewrite Hbyasin, Hl. reflexivity.
Qed.

Lemma empty_series_id_lookup_witness :
  exists s,
    In s (seriesList tildeRun.1 tildeRun.2)
    /\ SeriesInfo.seriesId s = []
    /\ getSeriesById tildeRun.1 [] = Some s
    /\ seriesIndex tildeRun.1 tildeRun.2 !! JS.lit "B101" = Some []
    /\ getSeriesByBookAsin tildeRun.1 (JS.lit "B101") = None.
Proof.
  destruct (empty_series_id_lookup lowerPlain [] [] [tilde1; tilde2])
    as (books0 & Hb & Hemit & Hmem).
  - apply List.Forall_nil.
  - apply uniqueIds_NoDup. apply NoDup_ListNoDup.
    apply (bool_decide_unpack _). vm_compute. exact I.
  - change (detectAndGroupSeries lowerPlain (after lowerPlain [] [])
              [tilde1; tilde2]) with tildeRun in Hemit, Hmem.
    assert (E : books0 = [tilde1; tilde2]) by (apply Hb; vm_compute; reflexivity).
    subst books0.
    destruct Hemit as (s & Hs & Hid & Hv & Hfind); [vm_compute; constructor|].
    exists s. split; [exact Hs|]. split; [exact Hid|]. split; [exact Hfind|].
    assert (Hn : normalizeForId lowerPlain (SeriesInfo.seriesName s) = []).
    { pose proof Hs as Hs'. vm_compute in Hs'. destruct Hs' as [<-|[]].
      vm_compute. reflexivity. }
    apply (Hmem s Hs Hn). unfold members. rewrite Hv.
    vm_compute. left. reflexivity.
Defined.

(* ===================================================================== *)
(** * Further properties                                                   *)
(* ===================================================================== *)

(** ** extractVolumeNumber: the number *)

Lemma toDouble_count z : 0 <= z -> isCount (JS.toDouble z).
Proof.
  intros Hz. pose proof (toDouble_negative z) as Hn.
  pose proof (toDouble_number z) as Hnan.
  destruct (JS.toDouble z) as [y|neg|]; cbn [JS.isNegative isCount] in *.
  - lia.
  - rewrite Hn. lia.
  - congruence.
Qed.

Lemma digitsFrom_count s : forall a n,
  0 <= a -> JS.digitsFrom (Some a) s = Some n -> 0 <= n.
Proof.
  induction s as [|c s IH]; intros a n Ha; cbn [JS.digitsFrom].
  - intros [= <-]. exact Ha.
  - destruct (JS.isDigit c) eqn:Hc; [|intros [= <-]; exact Ha].
    apply IH. cbn [default from_option id]. unfold JS.isDigit in Hc. lia.
Qed.

Lemma parseInt_digit_count c r :
  JS.isDigit c = true -> isCount (JS.parseInt (c :: r)).
Proof.
  intros Hc. unfold JS.parseInt, JS.trimStart. cbn [JS.dropWhile].
  rewrite (isDigit_not_space c Hc).
  assert (H45 : (c =? 45) = false) by (unfold JS.isDigit in Hc; lia).
  assert (H43 : (c =? 43) = false) by (unfold JS.isDigit in Hc; lia).
  rewrite H45, H43. cbn [JS.digitsFrom]. rewrite Hc.
  destruct (JS.digitsFrom _ r) as [n|] eqn:E.
  - apply toDouble_count. eapply digitsFrom_count; [|exact E].
    cbn [default from_option id]. unfold JS.isDigit in Hc. lia.
  - destruct (digitsFrom_Some r (10 * default 0 None + (c - 48))) as [n Hn].
    congruence.
Qed.

Lemma kanjiToNumber_range w n : lookup kanjiToNumber w = Some n -> 1 <= n <= 10.
Proof.
  unfold lookup.
  let v := eval vm_compute in kanjiToNumber in change kanjiToNumber with v.
  cbn [List.find fst snd].
  repeat (case_bool_decide; [cbn; intros [= <-]; lia|]).
  discriminate.
Qed.

Lemma token_count w :
  token w ->
  isCount match lookup kanjiToNumber w with
          | Some n => JS.Fin n
          | None => JS.parseInt w
          end.
Proof.
  intros Hw. destruct (lookup kanjiToNumber w) as [n|] eqn:E.
  - apply kanjiToNumber_range in E. cbn. lia.
  - destruct Hw as [(c & r & -> & Hc)|[n Hn]]; [|congruence].
    apply parseInt_digit_count, Hc.
Qed.

(** X1.  Whatever the title, a volume number that [extractVolumeNumber]
    finds is an integer that is not negative (or the infinity of an
    overlong run of digits): never NaN, never a negative number. *)
Theorem extract_volume_count title n :
  Extracted.volumeNumber (extractVolumeNumber title) = Some n -> isCount n.
Proof.
  unfold extractVolumeNumber. destruct title as [|c0 title]; [discriminate|].
  cbv zeta. set (t := normalizeString (c0 :: title)).
  destruct prefix_patterns_digits as [[B1 T1] [B2 T2]].
  destruct (exec prefixVolumePattern t) as [m|] eqn:E1.
  { cbn [Extracted.volumeNumber]. intros [= <-].
    pose proof (exec_group _ _ _ _ E1 B1) as H1.
    destruct (T1 _ H1) as (c & r & Hg & Hc). rewrite Hg.
    apply parseInt_digit_count, Hc. }
  destruct (exec prefixRangePattern t) as [m|] eqn:E2.
  { cbn [Extracted.volumeNumber]. intros [= <-].
    pose proof (exec_group _ _ _ _ E2 B2) as H2.
    destruct (T2 _ H2) as (c & r & Hg & Hc). rewrite Hg.
    apply parseInt_digit_count, Hc. }
  destruct (firstMatch patterns t) as [m|] eqn:E3; [|discriminate].
  destruct (firstMatch_In _ _ _ E3) as (p & Hp & Hm).
  pose proof patterns_token as Ht. rewrite List.Forall_forall in Ht.
  destruct (Ht p Hp) as [Bp Tp].
  unfold volumeOf. cbn [Extracted.volumeNumber]. intros [= <-].
  apply token_count, Tp. apply (exec_group p 2%nat t m Hm Bp).
Qed.

Lemma extract_volume_count_witness : isCount (JS.Fin 12).
Proof.
  apply (extract_volume_count (JS.lit "タイトル　ＶＯＬ．１２") (JS.Fin 12)).
  vm_compute. reflexivity.
Defined.

(** ** The manager after any calls *)

Lemma reset_tail h :
  reset h
  = {| store := h ++ [ArrayObj []; MapObj ∅];
       this := {| SeriesManager.seriesGroups := length h;
                  SeriesManager.bookToSeriesMap := S (length h);
                  SeriesManager.cacheValid := false |} |}.
Proof.
  unfold reset, alloc. rewrite length_app, Nat.add_1_r, <- app_assoc. reflexivity.
Qed.

(** The two objects of a manager are the two newest cells of the heap, and
    hold what some earlier book list gives (the empty list, for a manager
    that is new or was cleared). *)
Lemma reachable_tail toLowerCase ok st :
  ok [] -> reachable toLowerCase ok st ->
  exists h0 books0,
    ok books0
    /\ store st = h0 ++ [ArrayObj (groupsFrom toLowerCase books0);
                         MapObj (indexFrom (groupsFrom toLowerCase books0))]
    /\ SeriesManager.seriesGroups (this st) = length h0
    /\ SeriesManager.bookToSeriesMap (this st) = S (length h0).
Proof.
  intros Hnil. induction 1 as [h|st books Hst IH Hok|st Hst IH].
  - exists h, []. unfold constructor. rewrite reset_tail. auto.
  - destruct (cacheServes st) eqn:E.
    + rewrite detect_hit by exact E. exact IH.
    + rewrite detect_miss by exact E. exists (store st), books. auto.
  - exists (store st), []. unfold clearCache. rewrite reset_tail. auto.
Qed.

Lemma after_tail toLowerCase ok h calls :
  ok [] -> callsMeet ok calls ->
  exists h0 books0,
    ok books0
    /\ store (after toLowerCase h calls)
       = h0 ++ [ArrayObj (groupsFrom toLowerCase books0);
                MapObj (indexFrom (groupsFrom toLowerCase books0))]
    /\ SeriesManager.seriesGroups (this (after toLowerCase h calls)) = length h0
    /\ SeriesManager.bookToSeriesMap (this (after toLowerCase h calls))
       = S (length h0).
Proof.
  intros Hnil Hc. apply reachable_tail; [exact Hnil|].
  apply after_reachable, Hc.
Qed.

Lemma uniqueIds_nil : uniqueIds [].
Proof. intros b1 b2 []. Qed.

(** ** detectAndGroupSeries: which series, with which books *)

(** X2.  Every element of [volumes] of a returned series is a book of the
    list the result was computed from (the argument, unless the cache is
    served) that has a title and authors; its [volumeNumber] is the number
    that [extractVolumeNumber] finds in its title, never [null]; and the
    identifier of the series is the one generated from its title. *)
Theorem members_are_candidates toLowerCase h calls books :
  exists books0,
    (cacheServes (after toLowerCase h calls) = false -> books0 = books)
    /\ forall s v,
         In s (seriesList
                 (detectAndGroupSeries toLowerCase (after toLowerCase h calls) books).1
                 (detectAndGroupSeries toLowerCase (after toLowerCase h calls) books).2) ->
         In v (SeriesInfo.volumes s) ->
         In (Volume.book v) books0
         /\ truthy (Book.title (Volume.book v)) = true
         /\ truthy (Book.authors (Volume.book v)) = true
         /\ Volume.volumeNumber v
            = Extracted.volumeNumber
                (extractVolumeNumber (default [] (Book.title (Volume.book v))))
         /\ Volume.volumeNumber v <> None
         /\ SeriesInfo.seriesId s
            = generateSeriesId toLowerCase
                (Extracted.normalizedTitle
                   (extractVolumeNumber (default [] (Book.title (Volume.book v)))))
                (default [] (Book.authors (Volume.book v))).
Proof.
  pose proof (after_reachable toLowerCase anyBooks h calls (callsMeet_any calls))
    as Hst.
  destruct (detect_contents toLowerCase anyBooks _ books Hst I)
    as (books0 & _ & Hb & Hg & _).
  exists books0. split; [exact Hb|]. intros s v Hs Hv. rewrite Hg in Hs.
  destruct (groupsFrom_In toLowerCase books0 s Hs) as (Hvol & _).
  rewrite Hvol in Hv. apply (Permutation_in _ (sortVolumes_perm _)) in Hv.
  destruct (bucket_In toLowerCase _ _ _ Hv) as (Hin & c & Hc & Hk & Hcv).
  destruct (candidate_Some toLowerCase _ _ Hc)
    as (Ht & Ha & Hid & _ & _ & _ & Hn & Hnn).
  rewrite Hcv in Hn, Hnn. rewrite <- Hk, Hid. auto 10.
Qed.

(** X3.  The series of a returned list have pairwise distinct identifiers. *)
Theorem series_ids_distinct toLowerCase h calls books :
  List.NoDup
    (List.map SeriesInfo.seriesId
       (seriesList
          (detectAndGroupSeries toLowerCase (after toLowerCase h calls) books).1
          (detectAndGroupSeries toLowerCase (after toLowerCase h calls) books).2)).
Proof.
  pose proof (after_reachable toLowerCase anyBooks h calls (callsMeet_any calls))
    as Hst.
  destruct (detect_contents toLowerCase anyBooks _ books Hst I)
    as (books0 & _ & _ & -> & _).
  apply groupsFrom_NoDup.
Qed.

(** X4.  A returned list has a series with the identifier [k] exactly when
    two or more books of the list it was computed from (the argument, unless
    the cache is served) are candidates with the key [k]: no series is left
    out, and none is made of a single book. *)
Theorem series_iff_two_candidates toLowerCase h calls books :
  exists books0,
    (cacheServes (after toLowerCase h calls) = false -> books0 = books)
    /\ forall k,
         (exists s,
            In s (seriesList
                    (detectAndGroupSeries toLowerCase (after toLowerCase h calls) books).1
                    (detectAndGroupSeries toLowerCase (after toLowerCase h calls) books).2)
            /\ SeriesInfo.seriesId s = k)
         <-> (2 <= length (bucket toLowerCase k books0))%nat.
Proof.
  pose proof (after_reachable toLowerCase anyBooks h calls (callsMeet_any calls))
    as Hst.
  destruct (detect_contents toLowerCase anyBooks _ books Hst I)
    as (books0 & _ & Hb & Hg & _).
  exists books0. split; [exact Hb|]. intros k. rewrite Hg.
  apply groupsFrom_key.
Qed.

(** ** getSeriesById, getSeriesByBookAsin *)

(** X5.  After any calls, [getSeriesById] finds every series of the cached
    list by its own identifier; a series it returns is in the list and has
    the identifier asked for; and it returns [null] exactly when no series of
    the list has that identifier. *)
Theorem getSeriesById_round_trip toLowerCase h calls :
  let st := after toLowerCase h calls in
  (forall s, In s (seriesList st (cached st)) ->
     getSeriesById st (SeriesInfo.seriesId s) = Some s)
  /\ (forall id s, getSeriesById st id = Some s ->
        In s (seriesList st (cached st)) /\ SeriesInfo.seriesId s = id)
  /\ (forall id, getSeriesById st id = None <->
        forall s, In s (seriesList st (cached st)) -> SeriesInfo.seriesId s <> id).
Proof.
  intros st.
  destruct (after_tail toLowerCase anyBooks h calls I (callsMeet_any calls))
    as (h0 & books0 & _ & Hstore & Hg & _).
  fold st in Hstore, Hg.
  unfold getSeriesById, seriesList, cached. cbn [Detected.seriesGroups].
  rewrite Hstore, Hg, arrayAt_tail.
  split; [|split].
  - intros s Hs. apply find_by_id; [apply groupsFrom_NoDup|exact Hs].
  - intros id s H. apply find_some in H. destruct H as [Hin Hid].
    apply bool_decide_eq_true in Hid. auto.
  - intros id. split.
    + intros H s Hs E. pose proof (find_none _ _ H s Hs) as Hf. cbn beta in Hf.
      apply bool_decide_eq_false in Hf. contradiction.
    + intros H. destruct (List.find _ _) as [s|] eqn:E; [|reflexivity].
      apply find_some in E. destruct E as [Hin Hid].
      apply bool_decide_eq_true in Hid. destruct (H s Hin Hid).
Qed.

(** X6.  After any calls with book lists whose identifiers are unique,
    [getSeriesByBookAsin] returns, for the identifier of a book of a series,
    that series, unless the identifier of the series is the empty string
    (then [null]); and [null] for an identifier that is in no series. *)
Theorem getSeriesByBookAsin_round_trip toLowerCase h calls :
  callsMeet uniqueIds calls ->
  let st := after toLowerCase h calls in
  (forall s a, In s (seriesList st (cached st)) -> In a (members s) ->
     getSeriesByBookAsin st a
     = if bool_decide (SeriesInfo.seriesId s = []) then None else Some s)
  /\ (forall a, (forall s, In s (seriesList st (cached st)) -> ~ In a (members s)) ->
        getSeriesByBookAsin st a = None).
Proof.
  intros Hc st.
  destruct (after_tail toLowerCase uniqueIds h calls uniqueIds_nil Hc)
    as (h0 & books0 & Hu & Hstore & Hg & Hi).
  fold st in Hstore, Hg, Hi.
  destruct (indexFrom_consistent toLowerCase books0 Hu) as (_ & Hmem & Hnone).
  unfold getSeriesByBookAsin, getSeriesById, seriesList, cached.
  cbn [Detected.seriesGroups].
  rewrite Hstore, Hg, Hi, arrayAt_tail, mapAt_tail.
  split.
  - intros s a Hs Ha. rewrite (Hmem s a Hs Ha).
    destruct (SeriesInfo.seriesId s) as [|c r] eqn:E.
    + rewrite bool_decide_eq_true_2 by reflexivity. reflexivity.
    + rewrite bool_decide_eq_false_2 by discriminate.
      rewrite <- E. apply find_by_id; [apply groupsFrom_NoDup|exact Hs].
  - intros a Hno. rewrite (Hnone a Hno). reflexivity.
Qed.

Lemma getSeriesByBookAsin_round_trip_witness :
  getSeriesByBookAsin shelfRun.1 (JS.lit "B002") = Some dragon
  /\ getSeriesByBookAsin shelfRun.1 (JS.lit "B000") = None.
Proof.
  destruct (getSeriesByBookAsin_round_trip lowerPlain [] [Detect shelf])
    as [Hin Hout].
  - apply List.Forall_cons; [apply shelf_unique|apply List.Forall_nil].
  - change (after lowerPlain [] [Detect shelf]) with shelfRun.1 in *.
    assert (Hl : seriesList shelfRun.1 (cached shelfRun.1) = [dragon])
      by (vm_compute; reflexivity).
    rewrite Hl in Hin, Hout. split.
    + rewrite (Hin dragon (JS.lit "B002")).
      * reflexivity.
      * left. reflexivity.
      * vm_compute. right. left. reflexivity.
    + apply Hout. intros s [<-|[]]. vm_compute. intros [H|[H|[H|[]]]]; discriminate H.
Defined.

(** ** Objects that were handed out *)

Lemma step_extends toLowerCase st c :
  exists ext, store (step toLowerCase st c) = store st ++ ext.
Proof.
  destruct c as [books|]; cbn [step].
  - destruct (cacheServes st) eqn:E.
    + rewrite detect_hit by exact E. exists []. cbn [fst]. rewrite app_nil_r. reflexivity.
    + rewrite detect_miss by exact E. eexists. reflexivity.
  - unfold clearCache. rewrite reset_tail. eexists. reflexivity.
Qed.

Lemma steps_extend toLowerCase calls : forall st,
  exists ext, store (fold_left (step toLowerCase) calls st) = store st ++ ext.
Proof.
  induction calls as [|c calls IH]; intros st; cbn [fold_left].
  - exists []. rewrite app_nil_r. reflexivity.
  - destruct (IH (step toLowerCase st c)) as [ext2 H2].
    destruct (step_extends toLowerCase st c) as [ext1 H1].
    exists (ext1 ++ ext2). rewrite H2, H1, app_assoc. reflexivity.
Qed.

(** X7.  The two objects that a call of [detectAndGroupSeries] returns are
    never changed afterwards: whatever calls follow, the series list and the
    index behind the returned references hold what they held when the call
    returned. *)
Theorem results_never_mutated toLowerCase h calls books later :
  let st := after toLowerCase h calls in
  let res := detectAndGroupSeries toLowerCase st books in
  let st' := fold_left (step toLowerCase) later res.1 in
  seriesList st' res.2 = seriesList res.1 res.2
  /\ seriesIndex st' res.2 = seriesIndex res.1 res.2.
Proof.
  intros st res st'.
  assert (Hres : res.1 = after toLowerCase h (calls ++ [Detect books])).
  { unfold after. rewrite fold_left_app. reflexivity. }
  destruct (after_tail toLowerCase anyBooks h (calls ++ [Detect books]) I
              (callsMeet_any _)) as (h0 & books0 & _ & Hstore & Hg & Hi).
  rewrite <- Hres in Hstore, Hg, Hi.
  destruct (detect_cached toLowerCase st books) as [Hc _]. fold res in Hc.
  destruct (steps_extend toLowerCase later res.1) as [ext Hext]. fold st' in Hext.
  unfold seriesList, seriesIndex, arrayAt, mapAt. rewrite <- Hc.
  cbn [cached Detected.seriesGroups Detected.bookToSeriesMap].
  rewrite Hext, Hg, Hi, Hstore.
  rewrite !(lookup_app_l (h0 ++ _) ext) by (rewrite length_app; cbn [length]; lia).
  split; reflexivity.
Qed.

(** ** The name and the authors of a series *)

(** An entry of [seriesMap] takes its name and authors from the first book,
    in the order of the list, that is a candidate for its key. *)
Lemma collect_first toLowerCase books : forall k d,
  In (k, d) (collect toLowerCase books) ->
  exists pre b post c,
    books = pre ++ b :: post
    /\ candidate toLowerCase b = Some c
    /\ Candidate.seriesId c = k
    /\ bucket toLowerCase k pre = []
    /\ SeriesData.seriesName d = Candidate.seriesName c
    /\ SeriesData.authors d = Candidate.authors c.
Proof.
  induction books as [|book books IH] using rev_ind; intros k d Hin.
  - destruct Hin.
  - rewrite collect_snoc, addBook_candidate in Hin.
    assert (Hold : forall d0, In (k, d0) (collect toLowerCase books) ->
      exists pre b post c,
        books ++ [book] = pre ++ b :: post
        /\ candidate toLowerCase b = Some c
        /\ Candidate.seriesId c = k
        /\ bucket toLowerCase k pre = []
        /\ SeriesData.seriesName d0 = Candidate.seriesName c
        /\ SeriesData.authors d0 = Candidate.authors c).
    { intros d0 H0. destruct (IH _ _ H0) as (pre & b & post & c & -> & H).
      exists pre, b, (post ++ [book]), c. rewrite <- app_assoc. auto. }
    destruct (candidate toLowerCase book) as [c|] eqn:Ec; [|apply Hold, Hin].
    apply pushVolume_In in Hin. destruct Hin as (d0 & Hd0 & ->).
    assert (Hext : forall b0 : bool,
      SeriesData.seriesName (if b0 then extend d0 (Candidate.volume c) else d0)
      = SeriesData.seriesName d0
      /\ SeriesData.authors (if b0 then extend d0 (Candidate.volume c) else d0)
         = SeriesData.authors d0) by (intros []; split; reflexivity).
    destruct (Hext (bool_decide (k = Candidate.seriesId c))) as [-> ->].
    destruct (has (collect toLowerCase books) (Candidate.seriesId c)) eqn:Eh;
      cbn [negb] in Hd0; [apply Hold, Hd0|].
    unfold set in Hd0. apply in_app_or in Hd0.
    destruct Hd0 as [Hd0|[[= <- <-]|[]]]; [apply Hold, Hd0|].
    exists books, book, [], c. cbn [SeriesData.seriesName SeriesData.authors].
    repeat split; auto.
    destruct (bucket toLowerCase (Candidate.seriesId c) books) eqn:Eb; [reflexivity|].
    exfalso.
    pose proof (key_present _ _ _ (collect_collected toLowerCase books)
                  (Candidate.seriesId c)) as Hk.
    rewrite Eb in Hk. apply has_In in Hk; [congruence|discriminate].
Qed.

(** X8.  The name and the authors of a returned series are those of the
    first book, in the order of the list the result was computed from, that
    is a candidate for the series: the name is the title with the volume
    removed, as [extractVolumeNumber] returns it, and the authors are those
    of that book, whatever the authors of the later volumes. *)
Theorem series_named_after_first toLowerCase h calls books :
  exists books0,
    (cacheServes (after toLowerCase h calls) = false -> books0 = books)
    /\ forall s,
         In s (seriesList
                 (detectAndGroupSeries toLowerCase (after toLowerCase h calls) books).1
                 (detectAndGroupSeries toLowerCase (after toLowerCase h calls) books).2) ->
         exists pre b post,
           books0 = pre ++ b :: post
           /\ bucket toLowerCase (SeriesInfo.seriesId s) pre = []
           /\ In (Book.asin b) (members s)
           /\ SeriesInfo.seriesName s
              = Extracted.normalizedTitle
                  (extractVolumeNumber (default [] (Book.title b)))
           /\ SeriesInfo.authors s = default [] (Book.authors b).
Proof.
  pose proof (after_reachable toLowerCase anyBooks h calls (callsMeet_any calls))
    as Hst.
  destruct (detect_contents toLowerCase anyBooks _ books Hst I)
    as (books0 & _ & Hb & Hg & _).
  exists books0. split; [exact Hb|]. intros s Hs. rewrite Hg in Hs.
  destruct (groupsFrom_entry toLowerCase books0 s Hs) as (d & Hin & Hd).
  destruct (collect_first toLowerCase books0 _ _ Hin)
    as (pre & b & post & c & E & Hc & Hk & Hpre & Hn & Ha).
  destruct (candidate_Some toLowerCase _ _ Hc)
    as (_ & _ & _ & Hcn & Hca & Hcb & _).
  destruct (groupsFrom_In toLowerCase books0 s Hs) as (Hvol & _).
  exists pre, b, post. split; [exact E|]. split; [exact Hpre|].
  assert (Hsn : SeriesInfo.seriesName s = SeriesData.seriesName d
                /\ SeriesInfo.authors s = SeriesData.authors d).
  { unfold seriesInfoOf in Hd. cbn [fst snd] in Hd.
    destruct (2 <=? _)%nat; [|discriminate].
    destruct (sortBy _ _); [discriminate|]. injection Hd as <-. split; reflexivity. }
  destruct Hsn as [-> ->]. rewrite Hn, Ha, Hcn, Hca.
  split; [|split; reflexivity].
  unfold members. rewrite Hvol. apply in_map_iff.
  exists (Candidate.volume c). split; [rewrite Hcb; reflexivity|].
  apply (Permutation_in _ (Permutation_sym (sortVolumes_perm _))).
  rewrite E. unfold bucket. rewrite omap_app. apply in_or_app. right.
  cbn [omap list_omap]. rewrite Hc, bool_decide_eq_true_2 by exact Hk.
  left. reflexivity.
Qed.

(** ** extractVolumeNumber: titles without a volume *)

Lemma must_lang P r : forall w,
  must P r -> lang r w -> exists x, In x w /\ P x = true.
Proof.
  induction r as [|p|g p|r1 IH1 r2 IH2|r1 IH1 r2 IH2|i r1 IH1| |];
    intros w; cbn [must lang]; try tauto.
  - intros Hp (x & -> & Hx). exists x. split; [left; reflexivity|auto].
  - intros [H|H] (w1 & w2 & -> & L1 & L2).
    + destruct (IH1 _ H L1) as (x & Hx & Px). exists x.
      split; [apply in_or_app; auto|exact Px].
    + destruct (IH2 _ H L2) as (x & Hx & Px). exists x.
      split; [apply in_or_app; auto|exact Px].
  - intros [H1 H2] [L|L]; eauto.
  - apply IH1.
Qed.

(** A match is a part of the string that the pattern can consume. *)
Lemma searchFrom_lang r s : forall pos m,
  searchFrom r pos s = Some m -> exists pre w post, s = pre ++ w ++ post /\ lang r w.
Proof.
  induction s as [|x s IH]; intros pos m H; cbn [searchFrom] in H.
  - destruct (run r pos [] [] _) as [[e c]|] eqn:E; [|discriminate].
    destruct (run_sound _ _ _ _ _ _ E) as (w & s' & c' & Hs & L & _).
    exists [], w, s'. auto.
  - destruct (run r pos (x :: s) [] _) as [[e c]|] eqn:E.
    + destruct (run_sound _ _ _ _ _ _ E) as (w & s' & c' & Hs & L & _).
      exists [], w, s'. auto.
    + destruct (IH _ _ H) as (pre & w & post & -> & L).
      exists (x :: pre), w, post. auto.
Qed.

Lemma exec_must P r s m :
  must P r -> exec r s = Some m -> exists x, In x s /\ P x = true.
Proof.
  intros Hm He. destruct (searchFrom_lang _ _ _ _ He) as (pre & w & post & -> & L).
  destruct (must_lang P r w Hm L) as (x & Hx & Px).
  exists x. split; [|exact Px]. apply in_or_app. right. apply in_or_app. auto.
Qed.

Ltac mark_leaf :=
  let x := fresh "x" in
  let Hx := fresh "Hx" in
  intros x Hx;
  first
    [ unfold digit in Hx; unfold isVolumeMark; rewrite Hx; reflexivity
    | unfold isChar in Hx; apply Z.eqb_eq in Hx; subst x; vm_compute; reflexivity ].

Ltac mark_search :=
  lazymatch goal with
  | |- _ \/ _ => first [left; mark_search | right; mark_search]
  | |- _ /\ _ => split; mark_search
  | |- forall _, _ => mark_leaf
  end.

Ltac mark_pattern :=
  cbn [must seq alt fold_right fold_left plus plusLazy star opt ch];
  mark_search.

(** Every pattern of [extractVolumeNumber] needs a volume mark. *)
Lemma patterns_need_mark :
  Forall (must isVolumeMark) patterns
  /\ must isVolumeMark prefixVolumePattern
  /\ must isVolumeMark prefixRangePattern.
Proof.
  split; [|split].
  - unfold patterns.
    repeat (apply List.Forall_cons; [mark_pattern|]). apply List.Forall_nil.
  - unfold prefixVolumePattern. mark_pattern.
  - unfold prefixRangePattern. mark_pattern.
Qed.

Lemma firstMatch_None ps t :
  Forall (fun p => exec p t = None) ps -> firstMatch ps t = None.
Proof.
  induction 1 as [|p ps Hp _ IH]; cbn [firstMatch]; [reflexivity|].
  rewrite Hp. exact IH.
Qed.

(** A replacement changes a character into the replacement of the one class
    that applies to it. *)
Lemma applyAll_cases_from rs2 : forall rs1 c,
  replacements = rs1 ++ rs2 ->
  applyAll rs2 c = c
  \/ exists r, In r rs2 /\ r.1 c = true /\ applyAll rs2 c = r.2 c.
Proof.
  induction rs2 as [|r rs2 IH]; intros rs1 c E; [left; reflexivity|].
  unfold applyAll. cbn [fold_left]. destruct (r.1 c) eqn:Hr.
  - right. exists r. split; [left; reflexivity|]. split; [exact Hr|].
    assert (Hin : In r replacements).
    { rewrite E. apply in_or_app. right. left. reflexivity. }
    pose proof replacements_ascii as Ha. rewrite List.Forall_forall in Ha.
    pose proof (ascii_clean _ (Ha r Hin c Hr)) as Hc.
    fold (applyAll rs2 (r.2 c)). apply applyAll_fixed.
    unfold clean in Hc. rewrite E in Hc.
    apply List.Forall_app in Hc. destruct Hc as [_ Hc]. inversion Hc; assumption.
  - fold (applyAll rs2 c).
    destruct (IH (rs1 ++ [r]) c) as [H|(r' & Hin & H)].
    + rewrite <- app_assoc. exact E.
    + left. exact H.
    + right. exists r'. split; [right; exact Hin|exact H].
Qed.

Lemma applyAll_mark c :
  isVolumeMark (applyAll replacements c) = true -> isVolumeMarkIn c = true.
Proof.
  intros H. unfold isVolumeMarkIn.
  destruct (applyAll_cases_from replacements [] c eq_refl) as [E|(r & Hin & Hr & E)].
  - rewrite E in H. rewrite H. reflexivity.
  - rewrite E in H. unfold replacements in Hin. cbn [In] in Hin.
    destruct Hin as [<-|Hin].
    2:{ exfalso.
        repeat (destruct Hin as [<-|Hin];
                [cbn [snd] in H; vm_compute in H; discriminate H|]).
        destruct Hin. }
    cbn [fst snd] in Hr, H. unfold isFullWidthAlnum in Hr.
    unfold isVolumeMark in H. unfold fromCharCode in H.
    repeat match type of Hr with
      | context [JS.chr ?k] =>
          let v := eval vm_compute in (JS.chr k) in change (JS.chr k) with v in Hr
      end.
    repeat match goal with
      | |- context [JS.chr ?k] =>
          let v := eval vm_compute in (JS.chr k) in change (JS.chr k) with v
      end.
    rewrite Z.mod_small in H by lia.
    apply orb_true_iff in H. destruct H as [H|H].
    + unfold JS.isDigit in H. apply orb_true_iff. right. lia.
    + exfalso. unfold lookup in H.
      let v := eval vm_compute in kanjiToNumber in change kanjiToNumber with v in H.
      cbn [List.find fst snd] in H.
      repeat (case_bool_decide as Hd; [injection Hd; lia|clear Hd]).
      discriminate H.
Qed.

Lemma normalizeString_trimmed s : JS.trim (normalizeString s) = normalizeString s.
Proof.
  unfold normalizeString. destruct s; [reflexivity|]. apply trim_idempotent.
Qed.

(** X9.  A title without a digit (ASCII or full-width) and without any of
    the characters 上 中 下 一 ... 十 is no series candidate: for such a title
    [extractVolumeNumber] returns [null] as volume number and the normalized
    title as it is. *)
Theorem title_without_mark title :
  forallb (fun c => negb (isVolumeMarkIn c)) title = true ->
  extractVolumeNumber title
  = {| Extracted.volumeNumber := None;
       Extracted.normalizedTitle := normalizeString title |}.
Proof.
  intros Hno.
  assert (Ht : forall x, In x (normalizeString title) -> isVolumeMark x = false).
  { intros x Hx. rewrite normalizeString_chars in Hx.
    apply trim_In, collapseFrom_In in Hx. destruct Hx as [->|Hx]; [reflexivity|].
    apply in_map_iff in Hx. destruct Hx as (c & <- & Hc).
    destruct (isVolumeMark (applyAll replacements c)) eqn:E; [|reflexivity].
    apply applyAll_mark in E. rewrite forallb_forall in Hno.
    specialize (Hno c Hc). rewrite E in Hno. discriminate Hno. }
  assert (Hex : forall p, must isVolumeMark p -> exec p (normalizeString title) = None).
  { intros p Hp. destruct (exec p (normalizeString title)) as [m|] eqn:E; [|reflexivity].
    destruct (exec_must _ _ _ _ Hp E) as (x & Hx & Px).
    rewrite (Ht x Hx) in Px. discriminate Px. }
  destruct patterns_need_mark as (Hps & Hp1 & Hp2).
  unfold extractVolumeNumber. destruct title as [|c0 title]; [reflexivity|].
  cbv zeta. rewrite (Hex _ Hp1), (Hex _ Hp2).
  rewrite firstMatch_None.
  - rewrite normalizeString_trimmed. reflexivity.
  - eapply List.Forall_impl; [|exact Hps]. intros p Hp. apply Hex, Hp.
Qed.

Lemma title_without_mark_witness :
  extractVolumeNumber (JS.lit "独立した本")
  = {| Extracted.volumeNumber := None;
       Extracted.normalizedTitle := normalizeString (JS.lit "独立した本") |}.
Proof.
  apply (title_without_mark (JS.lit "独立した本")). vm_compute. reflexivity.
Defined.

(** ** normalizeString: the normal form *)

Lemma collapseFrom_length s : forall b,
  (length (JS.collapseFrom b s) <= length s)%nat.
Proof.
  induction s as [|c s IH]; intros b; cbn [JS.collapseFrom length]; [lia|].
  pose proof (IH true). pose proof (IH false).
  destruct (JS.isWhiteSpace c); [destruct b|]; cbn [length]; lia.
Qed.

Lemma dropWhile_length {A} (p : A -> bool) l :
  (length (JS.dropWhile p l) <= length l)%nat.
Proof.
  destruct (dropWhile_suffix p l) as [l1 E]. rewrite E at 2.
  rewrite length_app. lia.
Qed.

Lemma trim_length s : (length (JS.trim s) <= length s)%nat.
Proof.
  unfold JS.trim, JS.trimEnd, JS.trimStart. rewrite length_rev.
  etransitivity; [apply dropWhile_length|]. rewrite length_rev.
  apply dropWhile_length.
Qed.

Lemma normalizeString_clean s : Forall clean (normalizeString s).
Proof.
  apply List.Forall_forall. intros x Hx. rewrite normalizeString_chars in Hx.
  apply trim_In, collapseFrom_In in Hx. destruct Hx as [->|Hx].
  - apply ascii_clean. lia.
  - apply in_map_iff in Hx. destruct Hx as (c & <- & _). apply applyAll_clean.
Qed.

Lemma normalizeString_tidy s : tidy false (normalizeString s).
Proof. rewrite normalizeString_chars. apply tidy_trim, collapseFrom_tidy. Qed.

Lemma normalizeString_normalized s : normalized (normalizeString s).
Proof.
  split; [apply normalizeString_clean|].
  split; [apply normalizeString_tidy|apply normalizeString_trimmed].
Qed.

Lemma normalized_fixed s : normalized s -> normalizeString s = s.
Proof.
  intros (Hc & Ht & Hs). rewrite normalizeString_chars.
  assert (Hfix : List.map (applyAll replacements) s = s).
  { rewrite <- (List.map_id s) at 2. apply List.map_ext_in.
    intros x Hx. rewrite List.Forall_forall in Hc.
    apply applyAll_fixed, (Hc x Hx). }
  rewrite Hfix. unfold JS.collapseSpaces.
  rewrite (tidy_collapseFrom _ _ Ht). exact Hs.
Qed.

(** X10.  The result of [normalizeString] is in normal form: none of its
    characters is one that the function replaces, its white space is single
    spaces between other characters, and it is not longer than the argument.
    The strings in normal form are exactly the strings that the function
    leaves as they are. *)
Theorem normalizeString_normal_form s :
  normalized (normalizeString s)
  /\ (length (normalizeString s) <= length s)%nat
  /\ (normalizeString s = s <-> normalized s).
Proof.
  split; [apply normalizeString_normalized|]. split.
  - rewrite normalizeString_chars.
    etransitivity; [apply trim_length|].
    etransitivity; [apply collapseFrom_length|].
    rewrite length_map. lia.
  - split.
    + intros <-. apply normalizeString_normalized.
    + apply normalized_fixed.
Qed.

(** ** generateSeriesId: the characters of an identifier *)

(** X11.  A series identifier has no white space and none of the
    punctuation characters that [normalizeForId] removes, whatever the title
    and the authors, and whatever [toLowerCase] does. *)
Theorem generateSeriesId_no_noise toLowerCase title authors :
  Forall (fun c => isIdNoise c = false)
    (generateSeriesId toLowerCase title authors).
Proof.
  unfold generateSeriesId, normalizeForId.
  destruct title as [|c title]; [constructor|].
  apply List.Forall_forall. intros x Hx. apply trim_In in Hx.
  unfold JS.removeEach in Hx. apply filter_In in Hx.
  destruct Hx as [_ Hx]. apply negb_true_iff in Hx. exact Hx.
Qed.

(** ** getSeriesProgress: the counts *)

Lemma read_count_bounds toLowerCase (vs : list Volume.t) : forall n,
  n <= fold_left
         (fun read v => if isRead toLowerCase (Volume.book v) then read + 1 else read)
         vs n
    <= n + Z.of_nat (length vs).
Proof.
  induction vs as [|v vs IH]; intros n; cbn [fold_left length]; [lia|].
  destruct (isRead toLowerCase (Volume.book v)).
  - specialize (IH (n + 1)). lia.
  - specialize (IH n). lia.
Qed.

(** X12.  The counts of [getSeriesProgress] are consistent for every
    argument: [read] is between 0 and [total], [unread] is not negative, and
    [read] and [unread] add up to [total]. *)
Theorem getSeriesProgress_bounds toLowerCase series :
  let p := getSeriesProgress toLowerCase series in
  0 <= SeriesProgress.read p <= SeriesProgress.total p
  /\ 0 <= SeriesProgress.unread p
  /\ SeriesProgress.read p + SeriesProgress.unread p = SeriesProgress.total p.
Proof.
  destruct series as [|[volumes|]]; cbn; try lia.
  pose proof (read_count_bounds toLowerCase volumes 0) as H.
  cbn in H. lia.
Qed.

(** ** clearCache: a cleared manager is like a new one *)

(** X13.  After [clearCache], whatever the manager held, [getSeriesById] and
    [getSeriesByBookAsin] find nothing, and the next call of
    [detectAndGroupSeries] gives the series list and the index that a new
    manager gives for the same books. *)
Theorem clearCache_forgets toLowerCase st h books :
  let cleared := clearCache st in
  let fresh := constructor h in
  (forall id, getSeriesById cleared id = None)
  /\ (forall asin, getSeriesByBookAsin cleared asin = None)
  /\ seriesList (detectAndGroupSeries toLowerCase cleared books).1
       (detectAndGroupSeries toLowerCase cleared books).2
     = seriesList (detectAndGroupSeries toLowerCase fresh books).1
         (detectAndGroupSeries toLowerCase fresh books).2
  /\ seriesIndex (detectAndGroupSeries toLowerCase cleared books).1
       (detectAndGroupSeries toLowerCase cleared books).2
     = seriesIndex (detectAndGroupSeries toLowerCase fresh books).1
         (detectAndGroupSeries toLowerCase fresh books).2.
Proof.
  intros cleared fresh.
  assert (Hnew : forall h0,
    seriesList (detectAndGroupSeries toLowerCase (reset h0) books).1
      (detectAndGroupSeries toLowerCase (reset h0) books).2
    = groupsFrom toLowerCase books
    /\ seriesIndex (detectAndGroupSeries toLowerCase (reset h0) books).1
         (detectAndGroupSeries toLowerCase (reset h0) books).2
       = indexFrom (groupsFrom toLowerCase books)).
  { intros h0. rewrite detect_miss by apply cacheServes_reset.
    unfold seriesList, seriesIndex.
    cbn [fst snd store Detected.seriesGroups Detected.bookToSeriesMap].
    rewrite arrayAt_tail, mapAt_tail. auto. }
  assert (Hid : forall id, getSeriesById cleared id = None).
  { intros id. unfold cleared, clearCache, getSeriesById. rewrite reset_tail.
    cbn [store this SeriesManager.seriesGroups]. rewrite arrayAt_tail.
    reflexivity. }
  split; [exact Hid|]. split.
  - intros asin. unfold getSeriesByBookAsin.
    replace (mapAt (store cleared) (SeriesManager.bookToSeriesMap (this cleared)))
      with (∅ : gmap jsstring jsstring).
    + rewrite lookup_empty. reflexivity.
    + unfold cleared, clearCache. rewrite reset_tail.
      cbn [store this SeriesManager.bookToSeriesMap]. rewrite mapAt_tail.
      reflexivity.
  - unfold cleared, fresh, clearCache, constructor.
    destruct (Hnew (store st)) as [-> ->]. destruct (Hnew h) as [-> ->]. auto.
Qed.

(** ** detectAndGroupSeries: the order of the series *)

Lemma omap_split {A B} (f : A -> option B) (l : list A) : forall g1 y g2,
  omap f l = g1 ++ y :: g2 ->
  exists l1 x l2, l = l1 ++ x :: l2 /\ omap f l1 = g1 /\ f x = Some y
                  /\ omap f l2 = g2.
Proof.
  induction l as [|a l IH]; intros g1 y g2 E.
  - destruct g1; discriminate E.
  - cbn [omap list_omap] in E. destruct (f a) as [b|] eqn:Ea.
    + destruct g1 as [|b' g1]; cbn [app] in E.
      * injection E as -> <-. exists [], a, l. auto.
      * injection E as <- E. destruct (IH _ _ _ E) as (l1 & x & l2 & -> & H1 & Hx & H2).
        exists (a :: l1), x, l2. cbn [omap list_omap]. rewrite Ea.
        fold (omap f l1). rewrite H1. auto.
    + destruct (IH _ _ _ E) as (l1 & x & l2 & -> & H1 & Hx & H2).
      exists (a :: l1), x, l2. cbn [omap list_omap]. rewrite Ea.
      fold (omap f l1). auto.
Qed.

(** The keys of [seriesMap] are in the order in which their first candidates
    come in the book list. *)
Lemma collect_key_order toLowerCase books : forall l1 k2 l2 k1,
  List.map fst (collect toLowerCase books) = l1 ++ k2 :: l2 -> In k1 l1 ->
  exists pre post,
    books = pre ++ post
    /\ bucket toLowerCase k1 pre <> []
    /\ bucket toLowerCase k2 pre = [].
Proof.
  induction books as [|book books IH] using rev_ind; intros l1 k2 l2 k1 E H1.
  - destruct l1; discriminate E.
  - assert (Hold : forall l,
      List.map fst (collect toLowerCase books) = l1 ++ k2 :: l ->
      exists pre post,
        books ++ [book] = pre ++ post
        /\ bucket toLowerCase k1 pre <> []
        /\ bucket toLowerCase k2 pre = []).
    { intros l E0. destruct (IH _ _ _ _ E0 H1) as (pre & post & -> & H).
      exists pre, (post ++ [book]). rewrite <- app_assoc. auto. }
    rewrite collect_snoc, addBook_candidate in E.
    destruct (candidate toLowerCase book) as [c|] eqn:Ec; [|exact (Hold _ E)].
    rewrite pushVolume_keys in E.
    destruct (has (collect toLowerCase books) (Candidate.seriesId c)) eqn:Eh;
      cbn [negb] in E; [exact (Hold _ E)|].
    unfold set in E. rewrite List.map_app in E. cbn [List.map fst] in E.
    induction l2 as [|x l2' _] using rev_ind.
    + apply app_inj_tail in E. destruct E as [E <-].
      pose proof (collect_collected toLowerCase books) as Hc.
      exists books, [book]. split; [reflexivity|]. split.
      * rewrite <- E in H1. apply in_map_iff in H1.
        destruct H1 as ([k d] & Hk & Hin). cbn [fst] in Hk. subst k.
        destruct (entry_bucket _ _ _ Hc _ _ Hin) as (_ & Hv & _ & Hne).
        rewrite <- Hv. exact Hne.
      * destruct (bucket toLowerCase (Candidate.seriesId c) books) eqn:Eb;
          [reflexivity|]. exfalso.
        pose proof (key_present _ _ _ Hc (Candidate.seriesId c)) as Hk.
        rewrite Eb in Hk. apply has_In in Hk; [congruence|discriminate].
    + rewrite app_comm_cons, app_assoc in E.
      apply app_inj_tail in E. destruct E as [E _]. exact (Hold _ E).
Qed.

(** X14.  The series of a returned list are in the order in which their
    first volumes come in the book list that the result was computed from
    (the argument, unless the cache is served): when one series is before
    another in the list, a beginning of the book list has a candidate of the
    first series and none of the second. *)
Theorem series_in_first_seen_order toLowerCase h calls books :
  exists books0,
    (cacheServes (after toLowerCase h calls) = false -> books0 = books)
    /\ forall g1 s1 g2 s2 g3,
         seriesList
           (detectAndGroupSeries toLowerCase (after toLowerCase h calls) books).1
           (detectAndGroupSeries toLowerCase (after toLowerCase h calls) books).2
         = g1 ++ s1 :: g2 ++ s2 :: g3 ->
         exists pre post,
           books0 = pre ++ post
           /\ bucket toLowerCase (SeriesInfo.seriesId s1) pre <> []
           /\ bucket toLowerCase (SeriesInfo.seriesId s2) pre = [].
Proof.
  pose proof (after_reachable toLowerCase anyBooks h calls (callsMeet_any calls))
    as Hst.
  destruct (detect_contents toLowerCase anyBooks _ books Hst I)
    as (books0 & _ & Hb & Hg & _).
  exists books0. split; [exact Hb|]. intros g1 s1 g2 s2 g3 E.
  rewrite Hg in E. unfold groupsFrom in E.
  rewrite app_comm_cons, app_assoc in E.
  destruct (omap_split _ _ _ _ _ E) as (m1 & e2 & m2 & Em & E1 & He2 & _).
  destruct (omap_split _ _ _ _ _ E1) as (m1a & e1 & m1b & -> & _ & He1 & _).
  rewrite (seriesInfoOf_id _ _ He1), (seriesInfoOf_id _ _ He2).
  apply (collect_key_order toLowerCase books0
           (List.map fst (m1a ++ e1 :: m1b)) e2.1 (List.map fst m2)).
  - rewrite Em, List.map_app. reflexivity.
  - apply in_map. apply in_or_app. right. left. reflexivity.
Qed.

(** ** extractVolumeNumber: the title that is returned *)

Lemma within_refl s : within s s.
Proof. exists [], []. rewrite app_nil_r. reflexivity. Qed.

Lemma within_trans s t u : within s t -> within t u -> within s u.
Proof.
  intros (a & b & ->) (a' & b' & ->). exists (a ++ a'), (b' ++ b).
  rewrite <- !app_assoc. reflexivity.
Qed.

Lemma within_nil s : within s [].
Proof. exists s, []. rewrite app_nil_r. reflexivity. Qed.

Lemma within_firstn s n : within s (firstn n s).
Proof. exists [], (skipn n s). cbn [app]. symmetry. apply firstn_skipn. Qed.

Lemma within_trim s : within s (JS.trim s).
Proof.
  unfold JS.trim.
  destruct (trimEnd_prefix (JS.trimStart s)) as [t E].
  destruct (dropWhile_suffix JS.isWhiteSpace s) as [l1 E1].
  exists l1, t. fold (JS.trimStart s) in E1. rewrite <- E. exact E1.
Qed.

Lemma within_In s w x : within s w -> In x w -> In x s.
Proof.
  intros (a & b & ->) Hx. apply in_or_app. right. apply in_or_app. auto.
Qed.

Lemma tidy_weaken s b : tidy b s -> tidy false s.
Proof.
  destruct s as [|c s]; cbn [tidy]; [auto|].
  destruct (JS.isWhiteSpace c); [|auto]. intros (H1 & _ & H3). auto.
Qed.

Lemma tidy_suffix s1 s2 : forall b, tidy b (s1 ++ s2) -> tidy false s2.
Proof.
  induction s1 as [|c s1 IH]; intros b; cbn [app]; [apply tidy_weaken|].
  cbn [tidy]. destruct (JS.isWhiteSpace c).
  - intros (_ & _ & H). apply (IH _ H).
  - apply IH.
Qed.

Lemma tidy_within s w : tidy false s -> within s w -> tidy false w.
Proof.
  intros Hs (a & b & ->). apply tidy_suffix in Hs. apply (tidy_prefix _ _ _ Hs).
Qed.

(** A part of a string in normal form is in normal form once it is
    trimmed. *)
Lemma normalized_trim_within s w :
  normalized s -> within s w -> normalized (JS.trim w).
Proof.
  intros (Hc & Ht & _) Hw. split; [|split].
  - rewrite List.Forall_forall in *. intros x Hx.
    apply Hc, (within_In _ _ _ Hw), trim_In, Hx.
  - apply tidy_trim, (tidy_within _ _ Ht Hw).
  - apply trim_idempotent.
Qed.

(** What a match captures is a part of the string that is searched. *)
Lemma run_within input r : forall pos s c k res,
  run r pos s c k = Some res ->
  (exists a, input = a ++ s) ->
  Forall (fun e : nat * jsstring => within input e.2) c ->
  exists pos' s' c',
    (exists a, input = a ++ s')
    /\ Forall (fun e : nat * jsstring => within input e.2) c'
    /\ k pos' s' c' = Some res.
Proof.
  induction r as [|p|g p|r1 IH1 r2 IH2|r1 IH1 r2 IH2|i r1 IH1| |];
    intros pos s c k res H Hs Hc.
  - exists pos, s, c. auto.
  - cbn [run] in H. destruct s as [|x s]; [discriminate|].
    destruct (p x); [|discriminate]. exists (S pos), s, c.
    split; [|auto]. destruct Hs as [a ->]. exists (a ++ [x]).
    rewrite <- app_assoc. reflexivity.
  - destruct (run_star _ _ _ _ _ _ _ H) as (w & s' & -> & _ & Hk).
    exists (pos + length w)%nat, s', c. split; [|auto].
    destruct Hs as [a ->]. exists (a ++ w). rewrite <- app_assoc. reflexivity.
  - cbn [run] in H.
    destruct (IH1 _ _ _ _ _ H Hs Hc) as (pos1 & s1 & c1 & Hs1 & Hc1 & H1).
    apply (IH2 _ _ _ _ _ H1 Hs1 Hc1).
  - cbn [run] in H. destruct (run r1 pos s c k) eqn:E.
    + injection H as ->. apply (IH1 _ _ _ _ _ E Hs Hc).
    + apply (IH2 _ _ _ _ _ H Hs Hc).
  - cbn [run] in H.
    destruct (IH1 _ _ _ _ _ H Hs Hc) as (pos1 & s1 & c1 & Hs1 & Hc1 & H1).
    cbn beta in H1. eexists pos1, s1, _. split; [exact Hs1|].
    split; [|exact H1]. constructor; [|exact Hc1]. cbn [snd].
    destruct Hs as [a ->]. exists a, (skipn (pos1 - pos) s).
    rewrite firstn_skipn. reflexivity.
  - cbn [run] in H. destruct (Nat.eqb pos 0); [|discriminate].
    exists pos, s, c. auto.
  - cbn [run] in H. destruct s; [|discriminate]. exists pos, [], c. auto.
Qed.

Lemma searchFrom_within input r s : forall pos m,
  searchFrom r pos s = Some m -> (exists a, input = a ++ s) ->
  Forall (fun e : nat * jsstring => within input e.2) (groups m).
Proof.
  induction s as [|x s IH]; intros pos m H Hs; cbn [searchFrom] in H.
  all: destruct (run r pos _ [] _) as [[e c]|] eqn:E.
  all: try discriminate H.
  all: try (injection H as <-;
            destruct (run_within input _ _ _ _ _ _ E Hs (List.Forall_nil _))
              as (pos' & s' & c' & _ & Hc & Hk);
            injection Hk as _ <-; exact Hc).
  apply (IH _ _ H). destruct Hs as [a ->]. exists (a ++ [x]).
  rewrite <- app_assoc. reflexivity.
Qed.

Lemma group_within r s m i : exec r s = Some m -> within s (group i m).
Proof.
  intros H.
  pose proof (searchFrom_within s r s 0%nat m H (ex_intro _ [] eq_refl)) as Hg.
  unfold group. induction Hg as [|[j w] c Hw _ IH]; cbn [capture default].
  - apply within_nil.
  - destruct (Nat.eqb i j); [exact Hw|exact IH].
Qed.

(** A match of [trailingMarks] ends where the string ends. *)
Lemma trailingMarks_end s : forall pos m,
  searchFrom trailingMarks pos s = Some m -> matchEnd m = (pos + length s)%nat.
Proof.
  induction s as [|x s IH]; intros pos m H; cbn [searchFrom] in H.
  all: destruct (run trailingMarks pos _ [] _) as [[e c]|] eqn:E.
  all: try discriminate H.
  all: try (injection H as <-; cbn [matchEnd];
            unfold trailingMarks in E; cbn [seq fold_right] in E;
            cbn [run] in E; fold run in E;
            match type of E with
            | run ?r ?pos ?s ?c ?k = _ =>
                destruct (run_sound r pos s c k _ E)
                  as (w & s' & c' & Hs & _ & _ & Hk)
            end;
            destruct s' as [|y s']; [|discriminate Hk];
            injection Hk as <- _; rewrite Hs, app_nil_r; reflexivity).
  rewrite (IH _ _ H). cbn [length]. lia.
Qed.

Lemma removeFirst_trailingMarks s :
  exists n, removeFirst trailingMarks s = firstn n s.
Proof.
  unfold removeFirst. destruct (exec trailingMarks s) as [m|] eqn:E.
  - exists (matchIndex m). rewrite (trailingMarks_end _ _ _ E).
    cbn [Nat.add]. rewrite skipn_all, app_nil_r. reflexivity.
  - exists (length s). rewrite firstn_all. reflexivity.
Qed.

(** X15.  The title that [extractVolumeNumber] returns is a part of the
    normalized title, in one piece, and is itself in normal form: it has no
    white space at either end, and normalizing it again, as [normalizeForId]
    does, changes nothing. *)
Theorem extracted_title_normalized title :
  let t := Extracted.normalizedTitle (extractVolumeNumber title) in
  within (normalizeString title) t
  /\ normalized t
  /\ normalizeString t = t.
Proof.
  assert (H : within (normalizeString title)
                (Extracted.normalizedTitle (extractVolumeNumber title))
              /\ normalized (Extracted.normalizedTitle (extractVolumeNumber title))).
  { unfold extractVolumeNumber. destruct title as [|c0 title].
    - cbn. split; [apply within_refl|]. repeat split; constructor.
    - cbv zeta. set (t := normalizeString (c0 :: title)).
      pose proof (normalizeString_normalized (c0 :: title)) as Hn. fold t in Hn.
      assert (Hpart : forall w, within t w ->
                within t (JS.trim w) /\ normalized (JS.trim w)).
      { intros w Hw. split.
        - apply (within_trans _ _ _ Hw), within_trim.
        - apply (normalized_trim_within _ _ Hn Hw). }
      destruct (exec prefixVolumePattern t) as [m|] eqn:E1.
      { cbn [Extracted.normalizedTitle]. apply Hpart, (group_within _ _ _ _ E1). }
      destruct (exec prefixRangePattern t) as [m|] eqn:E2.
      { cbn [Extracted.normalizedTitle]. apply Hpart, (group_within _ _ _ _ E2). }
      destruct (firstMatch patterns t) as [m|] eqn:E3.
      + destruct (firstMatch_In _ _ _ E3) as (p & _ & Hm).
        unfold volumeOf. cbn [Extracted.normalizedTitle]. apply Hpart.
        destruct (removeFirst_trailingMarks (JS.trim (group 1 m))) as [n ->].
        apply (within_trans _ (JS.trim (group 1 m))); [|apply within_firstn].
        apply (within_trans _ (group 1 m)); [|apply within_trim].
        apply (group_within _ _ _ _ Hm).
      + cbn [Extracted.normalizedTitle]. apply Hpart, within_refl. }
  destruct H as [Hw Hn]. cbv zeta. split; [exact Hw|]. split; [exact Hn|].
  apply normalized_fixed, Hn.
Qed.
